(** * scrape_tags: ledger-tag scraper, registry and projections

    A shallow embedding of [src/regex/scrape_tags.py] and the proofs of the
    properties its specification states about it.

    Python [str] values are sequences of Unicode code points; they are
    modelled as lists of code points ([N]).  The regular expressions of the
    script are transcribed into a small abstract syntax and run by a
    backtracking matcher with Python's priorities (greedy and lazy
    repetition, ordered alternation, named groups). *)

From Stdlib Require Import NArith List String Ascii Bool Lia.
From Stdlib Require Import Sorting.Sorted Sorting.Permutation.
From stdpp Require Import base option list gmap.

Local Open Scope N_scope.

(** ** Strings *)

Abbreviation char := N (only parsing).
Abbreviation str := (list N) (only parsing).

(** An ASCII literal of the source, as a list of code points. *)
Definition py (s : string) : str :=
  List.map N_of_ascii (list_ascii_of_string s).

(** U+2014 EM DASH and U+223F SINE WAVE, the two non-ASCII characters of
    the source. *)
Definition emdash : char := 8212.
Definition sinewave : char := 8767.
Definition newline : char := 10.

(** [str.isspace] on one character; the same table drives [\s] of [re]
    and [str.strip]. *)
Definition isspace (c : char) : bool :=
  ((9 <=? c) && (c <=? 13)) || ((28 <=? c) && (c <=? 32))
  || (c =? 133) || (c =? 160) || (c =? 5760)
  || ((8192 <=? c) && (c <=? 8202))
  || (c =? 8232) || (c =? 8233) || (c =? 8239) || (c =? 8287)
  || (c =? 12288).

(** The decimal digits (category Nd) that [\d] accepts on [str] patterns:
    first code point and length of each block (Unicode 14). *)
Definition digit_blocks : list (N * N) :=
  [(48, 10); (1632, 10); (1776, 10); (1984, 10); (2406, 10); (2534, 10);
   (2662, 10); (2790, 10); (2918, 10); (3046, 10); (3174, 10); (3302, 10);
   (3430, 10); (3558, 10); (3664, 10); (3792, 10); (3872, 10); (4160, 10);
   (4240, 10); (6112, 10); (6160, 10); (6470, 10); (6608, 10); (6784, 10);
   (6800, 10); (6992, 10); (7088, 10); (7232, 10); (7248, 10); (42528, 10);
   (43216, 10); (43264, 10); (43472, 10); (43504, 10); (43600, 10);
   (44016, 10); (65296, 10); (66720, 10); (68912, 10); (69734, 10);
   (69872, 10); (69942, 10); (70096, 10); (70384, 10); (70736, 10);
   (70864, 10); (71248, 10); (71360, 10); (71472, 10); (71904, 10);
   (72016, 10); (72784, 10); (73040, 10); (73120, 10); (92768, 10);
   (92864, 10); (93008, 10); (120782, 50); (123200, 10); (123632, 10);
   (125264, 10); (130032, 10)].

Definition in_block (c : char) (b : N * N) : bool :=
  (fst b <=? c) && (c <? fst b + snd b).

Definition isdigit (c : char) : bool := existsb (in_block c) digit_blocks.

Definition is_upper (c : char) : bool := (65 <=? c) && (c <=? 90).
Definition is_lower (c : char) : bool := (97 <=? c) && (c <=? 122).
Definition is_alpha (c : char) : bool := is_upper c || is_lower c.
Definition is_digit09 (c : char) : bool := (48 <=? c) && (c <=? 57).

(** [str.upper].  The script applies it only to text captured by the
    classes [[A-Za-z]], [[A-Za-z0-9_~∿\-]] and [[A-Z0-9_]]; on those
    characters Python's upper-casing is the ASCII one below. *)
Definition upper_char (c : char) : char := if is_lower c then c - 32 else c.
Definition upper (s : str) : str := List.map upper_char s.

Fixpoint lstrip (s : str) : str :=
  match s with
  | c :: s' => if isspace c then lstrip s' else s
  | [] => []
  end.

Definition rstrip (s : str) : str := rev (lstrip (rev s)).

(** [str.strip()] *)
Definition strip (s : str) : str := rstrip (lstrip s).

(** The line boundaries of [str.splitlines]. *)
Definition is_linebreak (c : char) : bool :=
  ((10 <=? c) && (c <=? 13)) || ((28 <=? c) && (c <=? 30))
  || (c =? 133) || (c =? 8232) || (c =? 8233).

(** [str.splitlines()]: a line ends at a boundary, CR LF counts as one,
    and no empty last line is produced. [cur] is the line being read. *)
Fixpoint splitlines_from (cur : str) (s : str) : list str :=
  match s with
  | [] => match cur with [] => [] | _ => [cur] end
  | c :: rest =>
      if is_linebreak c then
        match rest with
        | d :: rest' =>
            if (c =? 13) && (d =? 10)
            then cur :: splitlines_from [] rest'
            else cur :: splitlines_from [] rest
        | [] => [cur]
        end
      else splitlines_from (cur ++ [c]) rest
  end.

Definition splitlines (s : str) : list str := splitlines_from [] s.

Definition str_eqb (a b : str) : bool := bool_decide (a = b).

(** [s.startswith(p)] *)
Fixpoint startswith (p s : str) : bool :=
  match p, s with
  | [], _ => true
  | a :: p', b :: s' => (a =? b) && startswith p' s'
  | _ :: _, [] => false
  end.

(** [sub in s] *)
Fixpoint contains (sub s : str) : bool :=
  startswith sub s ||
  match s with
  | [] => false
  | _ :: s' => contains sub s'
  end.

(** [sep.join(l)] *)
Fixpoint join (sep : str) (l : list str) : str :=
  match l with
  | [] => []
  | [x] => x
  | x :: l' => x ++ sep ++ join sep l'
  end.

(** Comparison of [str] values: lexicographic on code points. *)
Fixpoint str_compare (a b : str) : comparison :=
  match a, b with
  | [], [] => Eq
  | [], _ :: _ => Lt
  | _ :: _, [] => Gt
  | x :: a', y :: b' =>
      match x ?= y with
      | Eq => str_compare a' b'
      | o => o
      end
  end.

(** Python truthiness of an optional string: [a or b]. *)
Definition py_or (a : option str) (b : str) : str :=
  match a with
  | Some (c :: s) => c :: s
  | _ => b
  end.

(** ** Regular expressions *)

Module Re.

(** The fragment of [re] syntax the script uses.  Repetition is only ever
    applied to a character class. *)
Inductive regex : Type :=
  | Eps
  | Chr (p : char -> bool)
  | Seq (r1 r2 : regex)
  | Alt (r1 r2 : regex)
  | Star (greedy : bool) (p : char -> bool)
  | Group (name : string) (r : regex).

(** What the groups captured, most recent first. *)
Definition caps := list (string * str).

Definition K := str -> caps -> option caps.

(** [p*] (greedy) and [p*?] (lazy) followed by the continuation [k]. *)
Fixpoint star_cls (greedy : bool) (p : char -> bool) (s : str) (c : caps)
    (k : K) : option caps :=
  match s with
  | x :: s' =>
      if p x then
        if greedy then
          match star_cls greedy p s' c k with
          | Some r => Some r
          | None => k s c
          end
        else
          match k s c with
          | Some r => Some r
          | None => star_cls greedy p s' c k
          end
      else k s c
  | [] => k s c
  end.

(** Backtracking matcher in continuation-passing style: [rmatch r s c k]
    matches [r] on a prefix of [s] and hands the rest to [k]; the first
    alternative for which [k] succeeds wins. *)
Fixpoint rmatch (r : regex) (s : str) (c : caps) (k : K) : option caps :=
  match r with
  | Eps => k s c
  | Chr p =>
      match s with
      | x :: s' => if p x then k s' c else None
      | [] => None
      end
  | Seq r1 r2 => rmatch r1 s c (fun s1 c1 => rmatch r2 s1 c1 k)
  | Alt r1 r2 =>
      match rmatch r1 s c k with
      | Some x => Some x
      | None => rmatch r2 s c k
      end
  | Star g p => star_cls g p s c k
  | Group n r =>
      rmatch r s c
        (fun s' c' =>
           k s' ((n, firstn (length s - length s') s) :: c'))
  end.

Definition accept : K := fun _ c => Some c.

(** [re.match]: a match starting at the first character. *)
Definition match_ (r : regex) (s : str) : option caps := rmatch r s [] accept.

(** [re.search]: the leftmost position where a match starts. *)
Fixpoint search (r : regex) (s : str) : option caps :=
  match match_ r s with
  | Some c => Some c
  | None =>
      match s with
      | [] => None
      | _ :: s' => search r s'
      end
  end.

(** [m.group(name)]: [None] when the group took no part in the match. *)
Fixpoint group (c : caps) (name : string) : option str :=
  match c with
  | [] => None
  | (n, v) :: c' => if String.eqb n name then Some v else group c' name
  end.

(** Derived forms. *)
Definition Cat (rs : list regex) : regex := fold_right Seq Eps rs.
Definition Lit (s : str) : regex := Cat (List.map (fun c => Chr (N.eqb c)) s).
Definition Plus (greedy : bool) (p : char -> bool) : regex :=
  Seq (Chr p) (Star greedy p).
Definition Opt (r : regex) : regex := Alt r Eps.
Definition Count (n : nat) (p : char -> bool) : regex :=
  Cat (repeat (Chr p) n).

(** [.] without DOTALL *)
Definition dot (c : char) : bool := negb (c =? newline).
Definition not_chr (x : char) (c : char) : bool := negb (c =? x).

End Re.

Import Re.

(** [[A-Za-z0-9_~∿\-]] *)
Definition tag_char (c : char) : bool :=
  is_alpha c || is_digit09 c || (c =? 95) || (c =? 126) || (c =? sinewave)
  || (c =? 45).

(** [[A-Z0-9_]] *)
Definition reg_char (c : char) : bool :=
  is_upper c || is_digit09 c || (c =? 95).

Definition DATE : regex :=
  Cat [Count 4 isdigit; Lit (py "-"); Count 2 isdigit; Lit (py "-");
       Count 2 isdigit].

Definition VER : regex :=
  Cat [Plus true isdigit; Lit (py "."); Plus true isdigit; Lit (py ".");
       Plus true isdigit].

Definition LAYER_OPT : regex :=
  Opt (Cat [Lit (py "["); Group "layer" (Plus true is_alpha); Lit (py "]")]).

Definition TAG_RE : regex :=
  Cat [Lit (py "\Tag");
       LAYER_OPT;
       Lit (py "{"); Group "tag" (Plus true tag_char); Lit (py "}");
       Plus true isspace; Group "date" DATE;
       Plus true isspace; Lit (py "v"); Group "ver" VER;
       Plus true isspace; Chr (N.eqb emdash); Plus true isspace;
       Group "narr" (Plus true dot)].

Definition HDR_RE : regex :=
  Cat [Lit (py "\begin{SectionHeaderLedger}{");
       Group "title" (Plus false dot); Lit (py "}")].

Definition FTR_RE : regex := Lit (py "\begin{SectionFooterLedger}").

Definition END_RE : regex :=
  Cat [Lit (py "\end{Section"); Alt (Lit (py "Header")) (Lit (py "Footer"));
       Lit (py "Ledger}")].

Definition SECTION_RE : regex :=
  Cat [Lit (py "\Section");
       Opt (Cat [Lit (py "["); Star true (not_chr 93); Lit (py "]")]);
       Lit (py "{"); Star true (not_chr 125); Lit (py "}");
       Lit (py "{"); Star true (not_chr 125); Lit (py "}");
       Lit (py "{"); Group "title" (Plus true (not_chr 125)); Lit (py "}")].

(** The two patterns of the TAGS.md reader; the first is used with
    [re.match], which starts at the first character, where [^] holds. *)
Definition TBL_RE : regex :=
  Cat [Lit (py "|"); Star true isspace;
       Group "1" (Cat [Chr is_upper; Plus true reg_char]);
       Star true isspace; Lit (py "|")].

Definition DESC_RE : regex :=
  Cat [Lit (py "[");
       Group "tag" (Cat [Chr is_upper; Plus true reg_char]);
       Lit (py "]")].

(** ** Records and registry *)

(** One ledger entry: the dict built by [scrape_file]; [family] is the key
    that [enrich_with_family] adds ([None]: the key is absent). *)
Record Entry : Type := mkEntry {
  file : str;
  section : str;
  layer : str;
  tag : str;
  date : str;
  ver : str;
  note : str;
  family : option str
}.

#[global] Instance Entry_eq_dec : EqDecision Entry.
Proof. solve_decision. Defined.

Definition STRUCTURAL : str := py "Structural".
Definition PROCESS : str := py "Process".
Definition SYMBOLIC : str := py "Symbolic".
Definition META : str := py "Meta".
Definition EPIPHANY : str := py "Epiphany".
Definition UNKNOWN : str := py "Unknown".
Definition UNKNOWN_SECTION : str := py "(unknown section)".

Definition taxonomy : list str :=
  [STRUCTURAL; PROCESS; SYMBOLIC; META; EPIPHANY].

Definition BUILTIN_ITEMS : list (str * str) :=
  [ (py "GLYPH", STRUCTURAL); (py "NODE", STRUCTURAL); (py "ARC", STRUCTURAL);
    (py "LATTICE", STRUCTURAL); (py "CORE", STRUCTURAL);
    (py "GATE", STRUCTURAL); (py "BOND", STRUCTURAL); (py "SEED", STRUCTURAL);
    (py "SPINE", STRUCTURAL); (py "KEY", STRUCTURAL);
    (py "DRIFT", PROCESS); (py "ANCHOR", PROCESS); (py "FUSE", PROCESS);
    (py "REFRACT", PROCESS); (py "SPIRAL", PROCESS); (py "TEMPER", PROCESS);
    (py "CAST", PROCESS); (py "WARD", PROCESS); (py "TRACE", PROCESS);
    (py "FLOW", PROCESS); (py "BIND", PROCESS);
    (py "LIGHT", SYMBOLIC); (py "SHDW", SYMBOLIC); (py "MOTHER", SYMBOLIC);
    (py "FATHER", SYMBOLIC); (py "AIR", SYMBOLIC); (py "FIRE", SYMBOLIC);
    (py "WATER", SYMBOLIC); (py "EARTH", SYMBOLIC); (py "GNOME", SYMBOLIC);
    (py "OPAL", SYMBOLIC); (py "COMPASS", SYMBOLIC); (py "LAMP", SYMBOLIC);
    (py "FORGE", SYMBOLIC);
    (py "META", META); (py "ENGRAM", META); (py "LEDGER", META);
    (py "TEST", META); (py "PROOF", META); (py "CIPHER", META);
    (py "MAP", META); (py "GLOSS", META); (py "ARCHIVE", META);
    (py "ITER", META);
    (py "ARC_CLIMAX", EPIPHANY); (py "GATE_OPEN", EPIPHANY);
    (py "GATE_CLOSE", EPIPHANY); (py "CORE_REVEAL", EPIPHANY);
    (py "SPIRAL_TURN", EPIPHANY); (py "FORGE_STRIKE", EPIPHANY) ].

Definition BUILTIN_REGISTRY : gmap str str := list_to_map BUILTIN_ITEMS.

(** The heading keywords of [load_registry_from_md], in the order the dict
    is iterated. *)
Definition family_map : list (str * str) :=
  [ (py "Structural", STRUCTURAL); (py "Framework", STRUCTURAL);
    (py "Process", PROCESS); (py "Development", PROCESS);
    (py "Symbolic", SYMBOLIC); (py "Philosophical", SYMBOLIC);
    (py "Meta", META); (py "Operational", META);
    (py "Seeded Epiphany Matrix", EPIPHANY); (py "Epiphany", EPIPHANY) ].

(** Text of a group that takes part in every match of its pattern. *)
Definition group_str (c : caps) (name : string) : str :=
  match group c name with
  | Some v => v
  | None => []
  end.

(** [x and current_family]: the family when it is set (and not empty). *)
Definition truthy (a : option str) : option str :=
  match a with
  | Some (c :: s) => Some (c :: s)
  | _ => None
  end.

(** One turn of the loop of [load_registry_from_md] over the pair
    ([tag_to_family], [current_family]). *)
Definition registry_line (st : gmap str str * option str) (line : str)
    : gmap str str * option str :=
  let h := strip line in
  if startswith (py "## ") h then
    match List.find (fun kf => contains (fst kf) h) family_map with
    | Some kf => (fst st, Some (snd kf))
    | None => st
    end
  else
    match match_ TBL_RE h, truthy (snd st) with
    | Some m_tbl, Some fam =>
        (<[upper (group_str m_tbl "1") := fam]> (fst st), snd st)
    | _, _ =>
        match search DESC_RE h, truthy (snd st) with
        | Some m_desc, Some fam =>
            (<[upper (group_str m_desc "tag") := fam]> (fst st), snd st)
        | _, _ => st
        end
    end.

Definition registry_of_text (text : str) : gmap str str :=
  fst (fold_left registry_line (splitlines text) (∅, None)).

Section Files.

(** [path.read_text(encoding="utf-8")]: [None] when the file cannot be
    read or decoded. *)
Variable read_text : str -> option str.

Definition load_registry_from_md (path : str) : gmap str str :=
  match read_text path with
  | None => ∅
  | Some text => registry_of_text text
  end.

(** [dict(builtin)] followed by [update(md_map)]. *)
Definition overlay (builtin md_map : gmap str str) : gmap str str :=
  md_map ∪ builtin.

(** [get_registry]; [tags_reg] is [args.tags_reg]. *)
Definition get_registry (tags_reg : option str) : gmap str str :=
  match truthy tags_reg with
  | Some path => overlay BUILTIN_REGISTRY (load_registry_from_md path)
  | None => BUILTIN_REGISTRY
  end.

End Files.

(** ** Scraping *)

(** The tracker of [scrape_file]: [in_ledger] and [ledger_title]. *)
Record tracker : Type := mkTracker {
  in_ledger : bool;
  ledger_title : option str
}.

Definition tracker0 : tracker := mkTracker false None.

(** Lines 162-175: the entry built from a match [mt] of [TAG_RE]. *)
Definition entry_of (path : str) (section_ : str) (mt : caps) : Entry :=
  {| file := path;
     section := section_;
     layer := upper (py_or (group mt "layer") []);
     tag := upper (group_str mt "tag");
     date := group_str mt "date";
     ver := group_str mt "ver";
     note := strip (group_str mt "narr");
     family := None |}.

(** Lines 160-175: what a line that reaches the tag pattern appends. *)
Definition tag_entry (path : str) (section_title : option str) (st : tracker)
    (line : str) : list Entry :=
  match search TAG_RE line with
  | Some mt =>
      [ entry_of path
          (py_or (ledger_title st) (py_or section_title UNKNOWN_SECTION)) mt ]
  | None => []
  end.

(** One turn of the loop of [scrape_file]: the next tracker and the
    entries appended. *)
Definition scrape_line (path : str) (section_title : option str)
    (st : tracker) (line : str) : tracker * list Entry :=
  if negb (in_ledger st) then
    match search HDR_RE line with
    | Some mh => (mkTracker true (group mh "title"), [])
    | None =>
        match search FTR_RE line with
        | Some _ =>
            (mkTracker true (Some (py_or section_title UNKNOWN_SECTION)), [])
        | None => (st, tag_entry path section_title st line)
        end
    end
  else
    match search END_RE line with
    | Some _ => (mkTracker false None, [])
    | None => (st, tag_entry path section_title st line)
    end.

Fixpoint scrape_lines (path : str) (section_title : option str)
    (st : tracker) (lines : list str) : list Entry :=
  match lines with
  | [] => []
  | line :: rest =>
      let r := scrape_line path section_title st line in
      snd r ++ scrape_lines path section_title (fst r) rest
  end.

(** The tracker after a run of lines. *)
Definition track (path : str) (section_title : option str)
    (st : tracker) (lines : list str) : tracker :=
  fold_left (fun s l => fst (scrape_line path section_title s l)) lines st.

(** The title of the first section declaration of the document. *)
Definition prescan (text : str) : option str :=
  match search SECTION_RE text with
  | Some msec => group msec "title"
  | None => None
  end.

Definition scrape_text (path : str) (text : str) : list Entry :=
  scrape_lines path (prescan text) tracker0 (splitlines text).

Definition scrape_file (read_text : str -> option str) (path : str)
    : list Entry :=
  match read_text path with
  | None => []
  | Some text => scrape_text path text
  end.

(** ** Formatting *)

(** Stable insertion sort: [before x e] says that [x] comes strictly
    before [e] in the wanted order.  Python's [list.sort] and [sorted]
    are stable, also with [reverse=True], so their result is the one
    computed here. *)
Fixpoint insert_by {A : Type} (before : A -> A -> bool) (e : A) (l : list A)
    : list A :=
  match l with
  | [] => [e]
  | x :: l' => if before x e then x :: insert_by before e l' else e :: l
  end.

Definition stable_sort {A : Type} (before : A -> A -> bool) (l : list A)
    : list A :=
  fold_right (insert_by before) [] l.

(** The sort key [(e["date"], e["ver"])] and the order of such tuples. *)
Definition key (e : Entry) : str * str := (date e, ver e).

Definition key_compare (a b : str * str) : comparison :=
  match str_compare (fst a) (fst b) with
  | Eq => str_compare (snd a) (snd b)
  | o => o
  end.

Definition key_gt (a b : str * str) : bool :=
  match key_compare a b with
  | Gt => true
  | _ => false
  end.

(** [entries.sort(key=..., reverse=True)]: the new content of the list. *)
Definition sort_entries (entries : list Entry) : list Entry :=
  stable_sort (fun x e => key_gt (key x) (key e)) entries.

(** [groups[k].append(e)] on a [defaultdict(list)], kept in insertion
    order. *)
Fixpoint group_add {Kt : Type} `{EqDecision Kt} (k : Kt) (e : Entry)
    (groups : list (Kt * list Entry)) : list (Kt * list Entry) :=
  match groups with
  | [] => [(k, [e])]
  | g :: rest =>
      if bool_decide (fst g = k) then (fst g, snd g ++ [e]) :: rest
      else g :: group_add k e rest
  end.

Definition group_entries {Kt : Type} `{EqDecision Kt} (f : Entry -> Kt)
    (entries : list Entry) : list (Kt * list Entry) :=
  fold_left (fun groups e => group_add (f e) e groups) entries [].

(** [sorted(groups.items(), reverse=True)]: the keys of a dict differ, so
    the tuples are ordered by their keys. *)
Definition sorted_groups (groups : list ((str * str) * list Entry))
    : list ((str * str) * list Entry) :=
  stable_sort (fun x g => key_gt (fst x) (fst g)) groups.

Definition SEP : str := py " " ++ [emdash] ++ py " ".

Definition render_item (it : Entry) : str :=
  let layer_tag :=
    match layer it with
    | [] => py "[" ++ tag it ++ py "]"
    | _ => py "[" ++ layer it ++ py ":" ++ tag it ++ py "]"
    end in
  py "- **" ++ layer_tag ++ py "** (" ++ section it ++ py ")" ++ SEP
    ++ note it.

(** The chunks of one group: header, items, divider.  [items[0]] exists:
    a group is created by its first [append]. *)
Definition render_group (g : (str * str) * list Entry) : list str :=
  let items := snd g in
  let title := match items with it :: _ => section it | [] => [] end in
  let header :=
    py "## " ++ fst (fst g) ++ SEP ++ py "v" ++ snd (fst g) ++ SEP
      ++ py "Section updates"
      ++ (if existsb (fun it => negb (str_eqb (section it) title)) items
          then [] else py ": " ++ title) in
  header :: List.map render_item items ++ [[newline] ++ py "---" ++ [newline]].

(** The groups of the narrative, in the order they are rendered. *)
Definition narrative_groups (entries : list Entry)
    : list ((str * str) * list Entry) :=
  sorted_groups (group_entries key (sort_entries entries)).

Definition NO_MATCH : str := py "[info] no matching tags found.".

(** [format_markdown]: the text returned, and the content of the list
    object [entries] when the call returns (the list is sorted in place). *)
Definition format_markdown (entries : list Entry) : str * list Entry :=
  match entries with
  | [] => (NO_MATCH, entries)
  | _ =>
      (strip (join [newline]
                (List.concat (List.map render_group (narrative_groups entries)))),
       sort_entries entries)
  end.

(** ** Classification *)

Definition enrich_one (registry : gmap str str) (e : Entry) : Entry :=
  let fam := registry !! tag e in
  {| file := file e; section := section e; layer := layer e; tag := tag e;
     date := date e; ver := ver e; note := note e;
     family := Some (py_or fam UNKNOWN) |}.

Definition enrich_with_family (entries : list Entry)
    (registry : gmap str str) : list Entry :=
  List.map (enrich_one registry) entries.

(** [e.get(by, "")] *)
Definition get_field (e : Entry) (field : str) : str :=
  if str_eqb field (py "file") then file e
  else if str_eqb field (py "section") then section e
  else if str_eqb field (py "layer") then layer e
  else if str_eqb field (py "tag") then tag e
  else if str_eqb field (py "date") then date e
  else if str_eqb field (py "ver") then ver e
  else if str_eqb field (py "note") then note e
  else if str_eqb field (py "family") then default [] (family e)
  else [].

Definition json_grouped (entries : list Entry) (by_ : str)
    : list (str * list Entry) :=
  group_entries (fun e => get_field e by_) entries.

(** ** The run *)

Definition str_lt (a b : str) : bool :=
  match str_compare a b with
  | Lt => true
  | _ => false
  end.

(** [sorted({e["tag"] for e in enriched if e["family"] == "Unknown"})] *)
Definition unknown_set (enriched : list Entry) : gset str :=
  list_to_set
    (List.map tag
       (List.filter (fun e => bool_decide (family e = Some UNKNOWN)) enriched)).

Definition unknowns (enriched : list Entry) : list str :=
  stable_sort str_lt (elements (unknown_set enriched)).

(** What [main] hands to [json.dumps] or prints. *)
Inductive output : Type :=
  | JsonRaw (records : list Entry)
  | JsonGrouped (groups : list (str * list Entry))
  | Markdown (md : str).

(** The options of [main] that select registry and projection. *)
Record Args : Type := mkArgs {
  tags_reg : option str;
  json : str;
  group_by : str
}.

(** [main] from the registry on (lines 246-264): the warning written to
    stderr, if any, what is emitted, and the list object [enriched] when
    the projection has been produced. *)
Definition main_core (read_text : str -> option str) (args : Args)
    (all_entries : list Entry) : option str * output * list Entry :=
  let registry := get_registry read_text (tags_reg args) in
  let enriched := enrich_with_family all_entries registry in
  let uk := unknowns enriched in
  let warning :=
    match uk with
    | [] => None
    | _ =>
        Some (py "[warn] unknown tags (consider adding to TAGS.md): "
                ++ join (py ", ") uk ++ [newline])
    end in
  if str_eqb (json args) (py "raw") then
    (warning, JsonRaw enriched, enriched)
  else if str_eqb (json args) (py "grouped") then
    (warning, JsonGrouped (json_grouped enriched (group_by args)), enriched)
  else
    let r := format_markdown enriched in
    (warning, Markdown (fst r), snd r).

(** ** Notions used by the statements *)

(** Declarative reading of the patterns: [Matches r w c c'] says that [r]
    matches exactly the text [w], turning the captures [c] into [c']. *)
Inductive Matches : regex -> str -> caps -> caps -> Prop :=
  | M_eps c : Matches Eps [] c c
  | M_chr p x c : p x = true -> Matches (Chr p) [x] c c
  | M_seq r1 r2 w1 w2 c c1 c2 :
      Matches r1 w1 c c1 -> Matches r2 w2 c1 c2 ->
      Matches (Seq r1 r2) (w1 ++ w2) c c2
  | M_alt_l r1 r2 w c c' : Matches r1 w c c' -> Matches (Alt r1 r2) w c c'
  | M_alt_r r1 r2 w c c' : Matches r2 w c c' -> Matches (Alt r1 r2) w c c'
  | M_star g p w c : forallb p w = true -> Matches (Star g p) w c c
  | M_group n r w c c' :
      Matches r w c c' -> Matches (Group n r) w c ((n, w) :: c').

(** A line that opens a ledger (header or footer-open pattern), and one
    that carries the close pattern. *)
Definition is_open (line : str) : bool :=
  bool_decide (is_Some (search HDR_RE line))
  || bool_decide (is_Some (search FTR_RE line)).

Definition is_close (line : str) : bool :=
  bool_decide (is_Some (search END_RE line)).

(** The lines on which the tracker changes state; the loop goes on to the
    next line there. *)
Definition transition (st : tracker) (line : str) : bool :=
  if in_ledger st then is_close line else is_open line.

(** The title that applies in a tracker state: the ledger title inside a
    ledger, else the section title, else the sentinel. *)
Definition title_context (section_title : option str) (st : tracker) : str :=
  if in_ledger st then default [] (ledger_title st)
  else default UNKNOWN_SECTION section_title.

(** The tracker keeps a non-empty ledger title exactly while inside. *)
Definition tracker_ok (st : tracker) : Prop :=
  if in_ledger st then exists t, ledger_title st = Some t /\ t <> []
  else ledger_title st = None.

(** A registry maps tags to the five families of the taxonomy. *)
Definition registry_wf (registry : gmap str str) : Prop :=
  map_Forall (fun _ fam => fam ∈ taxonomy) registry.

(** [[A-Z][A-Z0-9_]+] *)
Definition reg_shape (t : str) : bool :=
  match t with
  | x :: y :: r => is_upper x && forallb reg_char (y :: r)
  | _ => false
  end.

(** What the reader's loop maintains: recorded tags have the shape
    [[A-Z][A-Z0-9_]+], recorded and current families are taxonomy names. *)
Definition reader_ok (st : gmap str str * option str) : Prop :=
  (forall t fam, fst st !! t = Some fam -> reg_shape t = true /\ fam ∈ taxonomy)
  /\ (forall fam, snd st = Some fam -> fam ∈ taxonomy).

(** [Consumes r w s c c']: on the text [w ++ s] the first alternative that
    the matcher tries for [r] takes exactly [w] and turns the captures [c]
    into [c']; it is kept whenever what follows succeeds on [s]. *)
Definition Consumes (r : regex) (w s : str) (c c' : caps) : Prop :=
  forall (k : K) (res : caps),
    k s c' = Some res -> rmatch r (w ++ s) c k = Some res.

(** The repetition of [p] cannot go on into [s]. *)
Definition stops (p : char -> bool) (s : str) : bool :=
  match s with
  | [] => true
  | x :: _ => negb (p x)
  end.

(** Modelled from the spec: the script has no function that writes an
    annotation line; this is the layout of section 4.1 and of its
    scenario, with one space for each run of whitespace and the layer
    bracket only for a non-empty layer.  The grammar wants at least one
    character after the separator, so an empty note is written as one
    blank, which trimming removes again. *)
Definition format_line (e : Entry) : str :=
  py "\Tag"
  ++ (match layer e with [] => [] | _ => py "[" ++ layer e ++ py "]" end)
  ++ py "{" ++ tag e ++ py "}"
  ++ py " " ++ date e
  ++ py " v" ++ ver e
  ++ SEP ++ (match note e with [] => py " " | _ => note e end).

(** [groups[k]] in a list of groups, empty when there is no such group. *)
Fixpoint items_of {Kt : Type} `{EqDecision Kt} (k : Kt)
    (groups : list (Kt * list Entry)) : list Entry :=
  match groups with
  | [] => []
  | g :: rest => if bool_decide (fst g = k) then snd g else items_of k rest
  end.

(** Order of the narrative: a key is not after another one. *)
Definition key_ge (a b : str * str) : Prop := key_gt b a = false.

(** ** Sample inputs *)

Definition rec_jan : Entry :=
  mkEntry (py "a.tex") (py "Origins") [] (py "SEED") (py "2024-01-01")
    (py "1.0.0") (py "Initial seed.") None.

Definition rec_jun : Entry :=
  mkEntry (py "a.tex") (py "Origins") (py "ONTO") (py "FLOW")
    (py "2024-06-01") (py "2.0.0") (py "Later flow.") None.

(** A TAGS.md that files SEED under Meta, and a file system that holds
    only it. *)
Definition tags_md : str := py "## Meta" ++ [newline] ++ py "| SEED | moved |".

Definition only_tags_md (path : str) : option str :=
  if str_eqb path (py "TAGS.md") then Some tags_md else None.

Definition rec_zzz : Entry :=
  mkEntry (py "a.tex") (py "Origins") [] (py "ZZZTOP") (py "2024-06-01")
    (py "2.0.0") (py "Later.") None.

(** The annotation line of the specification's scenario. *)
Definition seed_line : str :=
  py "\Tag[ONTO]{SEED} 2024-03-01 v1.2.0 " ++ [emdash] ++ py " Initial seed.".

(** The record of [seed_line] outside any ledger and section. *)
Definition seed_entry : Entry :=
  mkEntry (py "a.tex") (py "(unknown section)") (py "ONTO") (py "SEED")
    (py "2024-03-01") (py "1.2.0") (py "Initial seed.") None.

(** A ledger titled Origins around [seed_line]: the opening line, the
    document up to the annotation, and the lines up to the closing one. *)
Definition origins_header : str := py "\begin{SectionHeaderLedger}{Origins}".

Definition origins_doc : str := origins_header ++ [newline] ++ seed_line.

Definition origins_ledger : list str :=
  [origins_header; seed_line; py "\end{SectionHeaderLedger}"].

(** A ledger header with an annotation on the same line. *)
Definition header_with_tag : str :=
  py "\begin{SectionHeaderLedger}{Origins} " ++ seed_line.

(** A ledger opened and closed on one line. *)
Definition one_line_ledger : str :=
  py "\begin{SectionHeaderLedger}{Origins} \end{SectionHeaderLedger}".

(** An annotation whose note is blank: the dash is followed by two
    spaces. *)
Definition blank_note_line : str :=
  py "\Tag{A} 2024-01-01 v1.0.0 " ++ [emdash] ++ py "  ".

(** The record that scraping [blank_note_line] yields. *)
Definition blank_note_entry : Entry :=
  mkEntry (py "a.tex") (py "(unknown section)") [] (py "A") (py "2024-01-01")
    (py "1.0.0") [] None.

(** ** The rest of the run *)

(** [main], lines 234-237: the entries of all files, in the order of the
    files. *)
Definition scrape_files (read_text : str -> option str) (files : list str)
    : list Entry :=
  List.concat (List.map (scrape_file read_text) files).

(** A text of the form YYYY-MM-DD, with decimal digits. *)
Definition date_shape (d : str) : bool :=
  match d with
  | [y1; y2; y3; y4; h1; m1; m2; h2; d1; d2] =>
      forallb isdigit [y1; y2; y3; y4; m1; m2; d1; d2]
      && (h1 =? 45) && (h2 =? 45)
  | _ => false
  end.

(** A non-empty run of decimal digits. *)
Definition digits (s : str) : Prop := s <> [] /\ forallb isdigit s = true.

(** A heading line of TAGS.md that names a family: the only lines that set
    [current_family]. *)
Definition family_heading (line : str) : bool :=
  startswith (py "## ") (strip line)
  && bool_decide
       (is_Some (List.find (fun kf => contains (fst kf) (strip line))
                   family_map)).

(** The distinct values of a list, in the order of their first
    occurrence. *)
Definition first_seen (l : list str) : list str :=
  fold_left (fun acc k => if bool_decide (k ∈ acc) then acc else acc ++ [k])
    l [].

(** A record with another note. *)
Definition with_note (e : Entry) (n : str) : Entry :=
  {| file := file e; section := section e; layer := layer e; tag := tag e;
     date := date e; ver := ver e; note := n; family := family e |}.

(** * Proofs *)

(** Boolean tests on code points, turned into arithmetic for [lia]. *)
Ltac b2p :=
  repeat rewrite ?andb_true_iff, ?orb_true_iff, ?andb_false_iff,
    ?orb_false_iff, ?negb_true_iff, ?negb_false_iff, ?N.leb_le, ?N.ltb_lt,
    ?N.eqb_eq, ?N.leb_gt, ?N.ltb_ge, ?N.eqb_neq in *.

(** ** Order of strings and keys *)

Lemma str_compare_refl (a : str) : str_compare a a = Eq.
Proof.
  induction a as [|x a IH]; simpl; [reflexivity|].
  now rewrite N.compare_refl.
Qed.

Lemma str_compare_eq (a b : str) : str_compare a b = Eq -> a = b.
Proof.
  revert b; induction a as [|x a IH]; intros [|y b]; simpl; try discriminate;
    [reflexivity|].
  destruct (x ?= y) eqn:E; try discriminate.
  apply N.compare_eq in E. intros H. f_equal; auto.
Qed.

Lemma str_compare_antisym (a b : str) :
  str_compare b a = CompOpp (str_compare a b).
Proof.
  revert b; induction a as [|x a IH]; intros [|y b]; simpl; try reflexivity.
  rewrite (N.compare_antisym x y).
  destruct (x ?= y); simpl; auto.
Qed.

Lemma str_compare_lt_trans (a b c : str) :
  str_compare a b = Lt -> str_compare b c = Lt -> str_compare a c = Lt.
Proof.
  revert b c; induction a as [|x a IH]; intros [|y b] [|z c]; simpl;
    try discriminate; try reflexivity.
  destruct (x ?= y) eqn:Exy; try discriminate;
    destruct (y ?= z) eqn:Eyz; try discriminate; intros H1 H2.
  - apply N.compare_eq in Exy, Eyz. subst. rewrite N.compare_refl. eauto.
  - apply N.compare_eq in Exy. subst. now rewrite Eyz.
  - apply N.compare_eq in Eyz. subst. now rewrite Exy.
  - rewrite N.compare_lt_iff in Exy, Eyz.
    assert (x < z) as Hxz by lia.
    apply N.compare_lt_iff in Hxz. now rewrite Hxz.
Qed.

Lemma key_compare_eq (a b : str * str) : key_compare a b = Eq -> a = b.
Proof.
  destruct a as [a1 a2], b as [b1 b2]; unfold key_compare; simpl.
  destruct (str_compare a1 b1) eqn:E; try discriminate.
  intros H. apply str_compare_eq in E, H. congruence.
Qed.

Lemma key_compare_refl (a : str * str) : key_compare a a = Eq.
Proof. unfold key_compare. now rewrite !str_compare_refl. Qed.

Lemma key_compare_antisym (a b : str * str) :
  key_compare b a = CompOpp (key_compare a b).
Proof.
  unfold key_compare.
  rewrite (str_compare_antisym (fst a) (fst b)).
  rewrite (str_compare_antisym (snd a) (snd b)).
  destruct (str_compare (fst a) (fst b)); simpl; auto.
Qed.

Lemma key_compare_lt_trans (a b c : str * str) :
  key_compare a b = Lt -> key_compare b c = Lt -> key_compare a c = Lt.
Proof.
  unfold key_compare.
  destruct (str_compare (fst a) (fst b)) eqn:E1; try discriminate;
    destruct (str_compare (fst b) (fst c)) eqn:E2; try discriminate;
    intros H1 H2.
  - apply str_compare_eq in E1, E2. rewrite E1, E2, str_compare_refl.
    eauto using str_compare_lt_trans.
  - apply str_compare_eq in E1. rewrite E1, E2. reflexivity.
  - apply str_compare_eq in E2. rewrite <- E2, E1. reflexivity.
  - now rewrite (str_compare_lt_trans _ _ _ E1 E2).
Qed.

Lemma key_gt_lt (a b : str * str) :
  key_gt a b = true <-> key_compare b a = Lt.
Proof.
  unfold key_gt. rewrite (key_compare_antisym a b).
  destruct (key_compare a b); simpl; split; congruence.
Qed.

Lemma key_gt_irrefl (a : str * str) : key_gt a a = false.
Proof. unfold key_gt. now rewrite key_compare_refl. Qed.

Lemma key_gt_asym (a b : str * str) : key_gt a b = true -> key_gt b a = false.
Proof.
  unfold key_gt. rewrite (key_compare_antisym a b).
  destruct (key_compare a b); simpl; congruence.
Qed.

Lemma key_gt_trans (a b c : str * str) :
  key_gt a b = true -> key_gt b c = true -> key_gt a c = true.
Proof.
  rewrite !key_gt_lt. eauto using key_compare_lt_trans.
Qed.

Lemma key_gt_total (a b : str * str) :
  key_gt a b = false -> key_gt b a = false -> a = b.
Proof.
  unfold key_gt. rewrite (key_compare_antisym a b).
  destruct (key_compare a b) eqn:E; simpl; try congruence.
  intros _ _. now apply key_compare_eq.
Qed.

Lemma key_ge_trans (a b c : str * str) :
  key_ge a b -> key_ge b c -> key_ge a c.
Proof.
  unfold key_ge. intros H1 H2.
  destruct (key_gt c a) eqn:E; [|reflexivity].
  destruct (key_gt b a) eqn:E1; [discriminate|].
  destruct (key_gt a b) eqn:E3.
  - rewrite (key_gt_trans _ _ _ E E3) in H2. discriminate.
  - assert (a = b) by now apply key_gt_total. subst. congruence.
Qed.

Lemma str_lt_asym (a b : str) : str_lt a b = true -> str_lt b a = false.
Proof.
  unfold str_lt. rewrite (str_compare_antisym a b).
  destruct (str_compare a b); simpl; congruence.
Qed.

Lemma str_lt_total (a b : str) :
  str_lt a b = false -> str_lt b a = false -> a = b.
Proof.
  unfold str_lt. rewrite (str_compare_antisym a b).
  destruct (str_compare a b) eqn:E; simpl; try congruence.
  intros _ _. now apply str_compare_eq.
Qed.

Lemma str_lt_trans (a b c : str) :
  str_lt a b = true -> str_lt b c = true -> str_lt a c = true.
Proof.
  unfold str_lt.
  destruct (str_compare a b) eqn:E1; try discriminate.
  destruct (str_compare b c) eqn:E2; try discriminate.
  now rewrite (str_compare_lt_trans _ _ _ E1 E2).
Qed.

(** ** The stable sort *)

Section StableSort.

Context {A : Type}.
Variable before : A -> A -> bool.

Hypothesis before_asym : forall x y, before x y = true -> before y x = false.

(** [x] is not after [y]. *)
Let notafter (x y : A) : Prop := before y x = false.

Lemma insert_by_perm (e : A) (l : list A) :
  Permutation (insert_by before e l) (e :: l).
Proof.
  induction l as [|x l IH]; simpl; [reflexivity|].
  destruct (before x e); [|reflexivity].
  rewrite IH. apply perm_swap.
Qed.

Lemma stable_sort_perm (l : list A) : Permutation (stable_sort before l) l.
Proof.
  induction l as [|x l IH]; simpl; [reflexivity|].
  rewrite insert_by_perm. now constructor.
Qed.

Lemma insert_by_sorted (e : A) (l : list A) :
  Sorted notafter l -> Sorted notafter (insert_by before e l).
Proof.
  induction l as [|x l IH]; simpl; intros Hs.
  - repeat constructor.
  - destruct (before x e) eqn:E.
    + inversion Hs as [|? ? Hs' Hhd]; subst.
      constructor; [auto|].
      destruct l as [|y l]; simpl.
      * constructor. unfold notafter. auto.
      * destruct (before y e) eqn:E'.
        -- inversion Hhd; subst. now constructor.
        -- constructor. unfold notafter. auto.
    + constructor; [assumption|]. constructor. exact E.
Qed.

Lemma stable_sort_sorted (l : list A) : Sorted notafter (stable_sort before l).
Proof.
  induction l as [|x l IH]; simpl; [constructor|].
  now apply insert_by_sorted.
Qed.

Lemma stable_sort_id (l : list A) :
  Sorted notafter l -> stable_sort before l = l.
Proof.
  induction l as [|x l IH]; simpl; [reflexivity|].
  intros Hs. inversion Hs as [|? ? Hs' Hhd]; subst.
  rewrite (IH Hs').
  destruct l as [|y l]; simpl; [reflexivity|].
  inversion Hhd as [|? ? Hxy]; subst. unfold notafter in Hxy.
  now rewrite Hxy.
Qed.

(** Stability: elements that the order does not separate keep their
    relative position. *)
Lemma insert_by_filter (P : A -> bool) (e : A) (l : list A) :
  (forall x, P x = true -> P e = true -> before x e = false) ->
  List.filter P (insert_by before e l) = List.filter P (e :: l).
Proof.
  intros HP. induction l as [|x l IH]; simpl; [reflexivity|].
  destruct (before x e) eqn:E; [|reflexivity].
  simpl. simpl in IH. rewrite IH.
  destruct (P x) eqn:Px, (P e) eqn:Pe; try reflexivity.
  rewrite (HP x Px eq_refl) in E. discriminate.
Qed.

Lemma stable_sort_filter (P : A -> bool) (l : list A) :
  (forall x y, P x = true -> P y = true -> before x y = false) ->
  List.filter P (stable_sort before l) = List.filter P l.
Proof.
  intros HP. induction l as [|x l IH]; simpl; [reflexivity|].
  rewrite insert_by_filter by eauto.
  simpl. now rewrite IH.
Qed.

End StableSort.

Lemma StronglySorted_strict {A B : Type} (f : A -> B) (R S : A -> A -> Prop)
    (l : list A) :
  (forall x y, R x y -> f x <> f y -> S x y) ->
  List.NoDup (List.map f l) -> StronglySorted R l -> StronglySorted S l.
Proof.
  intros HRS Hnd Hs. induction Hs as [|x l Hs IH Hall]; [constructor|].
  simpl in Hnd. apply NoDup_cons_iff in Hnd as [Hx Hnd].
  constructor; [auto|].
  rewrite List.Forall_forall in *. intros y Hy.
  apply HRS; [auto|]. intros Heq. apply Hx. rewrite Heq.
  now apply in_map.
Qed.

Lemma StronglySorted_suffix {A : Type} (R : A -> A -> Prop) (a l : list A) :
  StronglySorted R (a ++ l) -> StronglySorted R l.
Proof.
  induction a as [|x a IH]; simpl; [auto|].
  intros Hs. inversion Hs; auto.
Qed.

Lemma StronglySorted_order {A : Type} (R : A -> A -> Prop) (l : list A)
    (x y : A) :
  StronglySorted R l -> In x l -> In y l -> x <> y -> ~ R y x ->
  exists a b c, l = a ++ x :: b ++ y :: c.
Proof.
  intros Hs Hx Hy Hne Hnot.
  apply in_split in Hx as (a & r & ->).
  apply in_app_or in Hy as [Hy|[Hy|Hy]]; [|congruence|].
  - exfalso. apply in_split in Hy as (a1 & a2 & ->).
    rewrite <- app_assoc in Hs. simpl in Hs.
    apply StronglySorted_suffix in Hs. inversion Hs as [|? ? _ Hall]; subst.
    rewrite List.Forall_forall in Hall. apply Hnot, Hall.
    apply in_or_app. right. now left.
  - apply in_split in Hy as (b & c & ->). now exists a, b, c.
Qed.

(** ** Grouping *)

Section Grouping.

Context {Kt : Type} `{EqDecision Kt}.

Lemma group_add_keys (k k' : Kt) (e : Entry) (g : list (Kt * list Entry)) :
  In k' (List.map fst (group_add k e g)) <-> k' = k \/ In k' (List.map fst g).
Proof.
  induction g as [|[k0 items] g IH]; simpl.
  - intuition.
  - case_bool_decide as Hk; simpl in *.
    + subst. intuition.
    + rewrite IH. intuition.
Qed.

Lemma group_add_nodup (k : Kt) (e : Entry) (g : list (Kt * list Entry)) :
  List.NoDup (List.map fst g) -> List.NoDup (List.map fst (group_add k e g)).
Proof.
  induction g as [|[k0 items] g IH]; simpl; intros Hnd.
  - repeat constructor. intros [].
  - apply NoDup_cons_iff in Hnd as [Hk0 Hnd].
    case_bool_decide as Hk; simpl in *.
    + now apply NoDup_cons_iff.
    + apply NoDup_cons_iff. split; [|auto].
      rewrite group_add_keys. intuition.
Qed.

Lemma items_of_group_add (k k' : Kt) (e : Entry) (g : list (Kt * list Entry)) :
  items_of k' (group_add k e g)
  = if bool_decide (k = k') then items_of k g ++ [e] else items_of k' g.
Proof.
  induction g as [|[k0 items] g IH]; simpl.
  - repeat case_bool_decide; congruence.
  - destruct (bool_decide (k0 = k)) eqn:E0; simpl.
    + apply bool_decide_eq_true in E0. subst k0.
      repeat case_bool_decide; congruence.
    + apply bool_decide_eq_false in E0. rewrite IH.
      repeat case_bool_decide; congruence.
Qed.

Lemma items_of_In (k : Kt) (items : list Entry) (g : list (Kt * list Entry)) :
  List.NoDup (List.map fst g) -> In (k, items) g -> items_of k g = items.
Proof.
  induction g as [|[k0 items0] g IH]; simpl; intros Hnd Hin; [destruct Hin|].
  apply NoDup_cons_iff in Hnd as [Hk0 Hnd].
  destruct Hin as [[= -> ->]|Hin].
  - now rewrite bool_decide_eq_true_2.
  - rewrite bool_decide_eq_false_2; [auto|].
    intros ->. apply Hk0. change k with (fst (k, items)). now apply in_map.
Qed.

Variable f : Entry -> Kt.

Lemma items_of_fold (l : list Entry) (g : list (Kt * list Entry)) (k : Kt) :
  items_of k (fold_left (fun groups e => group_add (f e) e groups) l g)
  = items_of k g ++ List.filter (fun e => bool_decide (f e = k)) l.
Proof.
  revert g. induction l as [|e l IH]; intros g; simpl.
  - now rewrite app_nil_r.
  - rewrite IH, items_of_group_add.
    case_bool_decide as Hk; [|reflexivity].
    subst k. now rewrite <- app_assoc.
Qed.

Lemma group_fold_keys (l : list Entry) (g : list (Kt * list Entry)) (k : Kt) :
  In k (List.map fst (fold_left (fun groups e => group_add (f e) e groups) l g))
  <-> In k (List.map fst g) \/ exists e, In e l /\ f e = k.
Proof.
  revert g. induction l as [|e l IH]; intros g; simpl.
  - split; [auto|]. intros [H|(e & [] & _)]; auto.
  - rewrite IH, group_add_keys. split.
    + intros [[->|H]|(e' & He' & Hk)]; eauto.
    + intros [H|(e' & [->|He'] & Hk)]; eauto.
Qed.

Lemma group_fold_nodup (l : list Entry) (g : list (Kt * list Entry)) :
  List.NoDup (List.map fst g) ->
  List.NoDup (List.map fst (fold_left (fun groups e => group_add (f e) e groups) l g)).
Proof.
  revert g. induction l as [|e l IH]; intros g Hnd; simpl; [assumption|].
  apply IH. now apply group_add_nodup.
Qed.

Lemma group_entries_keys (l : list Entry) (k : Kt) :
  In k (List.map fst (group_entries f l)) <-> exists e, In e l /\ f e = k.
Proof.
  unfold group_entries. rewrite group_fold_keys. simpl. intuition.
Qed.

Lemma group_entries_nodup (l : list Entry) :
  List.NoDup (List.map fst (group_entries f l)).
Proof. apply group_fold_nodup. constructor. Qed.

Lemma group_entries_items (l : list Entry) (k : Kt) (items : list Entry) :
  In (k, items) (group_entries f l) ->
  items = List.filter (fun e => bool_decide (f e = k)) l.
Proof.
  intros Hin. rewrite <- (items_of_In k items (group_entries f l)).
  - unfold group_entries. now rewrite items_of_fold.
  - apply group_entries_nodup.
  - exact Hin.
Qed.

End Grouping.

(** ** The narrative projection *)

Lemma sort_entries_perm (entries : list Entry) :
  Permutation entries (sort_entries entries).
Proof. symmetry. apply stable_sort_perm. Qed.

#[local] Instance key_ge_entries_trans :
  Transitive (fun a b : Entry => key_ge (key a) (key b)).
Proof. intros a b c. apply key_ge_trans. Qed.

#[local] Instance key_ge_groups_trans :
  Transitive (fun a b : (str * str) * list Entry => key_ge (fst a) (fst b)).
Proof. intros a b c. apply key_ge_trans. Qed.

Lemma sort_entries_sorted (entries : list Entry) :
  StronglySorted (fun a b => key_ge (key a) (key b)) (sort_entries entries).
Proof.
  apply Sorted_StronglySorted; [apply key_ge_entries_trans|].
  apply (stable_sort_sorted (fun x e => key_gt (key x) (key e))).
  intros x y. apply key_gt_asym.
Qed.

Lemma sort_entries_stable (entries : list Entry) (k : str * str) :
  List.filter (fun e => bool_decide (key e = k)) (sort_entries entries)
  = List.filter (fun e => bool_decide (key e = k)) entries.
Proof.
  apply stable_sort_filter. intros x y Hx Hy.
  apply bool_decide_eq_true in Hx, Hy. rewrite Hx, Hy.
  apply key_gt_irrefl.
Qed.

Lemma sort_entries_id (entries : list Entry) :
  StronglySorted (fun a b => key_ge (key a) (key b)) entries ->
  sort_entries entries = entries.
Proof.
  intros Hs. apply stable_sort_id. now apply StronglySorted_Sorted.
Qed.

Lemma narrative_groups_keys (entries : list Entry) (k : str * str) :
  In k (List.map fst (narrative_groups entries))
  <-> exists e, In e entries /\ key e = k.
Proof.
  unfold narrative_groups, sorted_groups.
  assert (Permutation
            (List.map fst (stable_sort
               (fun x g : (str * str) * list Entry => key_gt (fst x) (fst g))
               (group_entries key (sort_entries entries))))
            (List.map fst (group_entries key (sort_entries entries)))) as Hp.
  { apply Permutation_map, stable_sort_perm. }
  split.
  - intros Hin. apply (Permutation_in _ Hp) in Hin.
    apply group_entries_keys in Hin as (e & He & Hk).
    exists e. split; [|assumption].
    eapply Permutation_in; [symmetry; apply sort_entries_perm|assumption].
  - intros (e & He & Hk).
    apply (Permutation_in _ (Permutation_sym Hp)).
    apply group_entries_keys. exists e. split; [|assumption].
    eapply Permutation_in; [apply sort_entries_perm|assumption].
Qed.

Lemma narrative_groups_items (entries : list Entry) (k : str * str)
    (items : list Entry) :
  In (k, items) (narrative_groups entries) ->
  items <> []
  /\ items = List.filter (fun e => bool_decide (key e = k)) entries.
Proof.
  intros Hin.
  assert (In k (List.map fst (narrative_groups entries))) as Hk
    by (change k with (fst (k, items)); now apply in_map).
  apply narrative_groups_keys in Hk as (e & He & Hke).
  assert (items = List.filter (fun e => bool_decide (key e = k)) entries)
    as ->.
  { rewrite <- sort_entries_stable. apply group_entries_items.
    eapply Permutation_in; [|exact Hin].
    unfold narrative_groups, sorted_groups. apply stable_sort_perm. }
  split; [|reflexivity].
  intros Hnil.
  assert (In e (List.filter (fun e => bool_decide (key e = k)) entries)) as H
    by (apply filter_In; split; [assumption|now apply bool_decide_eq_true]).
  rewrite Hnil in H. destruct H.
Qed.

Lemma narrative_groups_sorted (entries : list Entry) :
  StronglySorted (fun g1 g2 => key_gt (fst g1) (fst g2) = true)
    (narrative_groups entries).
Proof.
  unfold narrative_groups, sorted_groups.
  apply (StronglySorted_strict fst (fun a b => key_ge (fst a) (fst b))).
  - intros x y Hge Hne. unfold key_ge in Hge.
    destruct (key_gt (fst x) (fst y)) eqn:E; [reflexivity|].
    exfalso. apply Hne. now apply key_gt_total.
  - eapply Permutation_NoDup.
    + symmetry. apply Permutation_map, stable_sort_perm.
    + apply group_entries_nodup.
  - apply Sorted_StronglySorted; [apply key_ge_groups_trans|].
    apply (stable_sort_sorted
             (fun x g : (str * str) * list Entry => key_gt (fst x) (fst g))).
    intros x y. apply key_gt_asym.
Qed.

Lemma format_markdown_list (entries : list Entry) :
  snd (format_markdown entries) = sort_entries entries.
Proof. destruct entries; reflexivity. Qed.

(** C5: the narrative projection of the empty record list is the fixed
    no-matches message; the message is not the empty string, and the list
    is left empty. *)
Theorem format_markdown_empty :
  fst (format_markdown []) = py "[info] no matching tags found."
  /\ fst (format_markdown []) <> []
  /\ snd (format_markdown []) = [].
Proof. repeat split. discriminate. Qed.

(** C1, as the specification states it, fails: the renderer sorts the list
    it is given in place, so two records in ascending date order come back
    in the other order. *)
Lemma format_markdown_reorders :
  snd (format_markdown [rec_jan; rec_jun]) = [rec_jun; rec_jan]
  /\ snd (format_markdown [rec_jan; rec_jun]) <> [rec_jan; rec_jun].
Proof. split; [reflexivity|discriminate]. Qed.

(** C1, amended: the narrative renderer keeps the records of the list it
    is given but reorders the list in place: afterwards it holds the same
    records (a permutation), in descending order of (date, ver), records
    with the same key in their former order; a list already in descending
    order is left as it was.  The raw projection of [main] is produced on
    a run that does not call the renderer and lists the records in their
    original order. *)
Theorem format_markdown_sorts_in_place (entries : list Entry) :
  let after := snd (format_markdown entries) in
  Permutation entries after
  /\ StronglySorted (fun a b => key_ge (key a) (key b)) after
  /\ (forall k,
        List.filter (fun e => bool_decide (key e = k)) after
        = List.filter (fun e => bool_decide (key e = k)) entries)
  /\ (StronglySorted (fun a b => key_ge (key a) (key b)) entries ->
      after = entries)
  /\ (forall read_text args,
        json args = py "raw" ->
        let registry := get_registry read_text (tags_reg args) in
        snd (fst (main_core read_text args entries))
        = JsonRaw (List.map (enrich_one registry) entries)).
Proof.
  cbv zeta. rewrite format_markdown_list.
  split; [apply sort_entries_perm|].
  split; [apply sort_entries_sorted|].
  split; [apply sort_entries_stable|].
  split; [apply sort_entries_id|].
  intros read_text args Hj. unfold main_core. rewrite Hj. reflexivity.
Qed.

Lemma format_markdown_sorts_in_place_witness :
  snd (format_markdown [rec_jan; rec_jun]) = [rec_jun; rec_jan]
  /\ Permutation [rec_jan; rec_jun] (snd (format_markdown [rec_jan; rec_jun])).
Proof.
  split; [reflexivity|].
  apply (format_markdown_sorts_in_place [rec_jan; rec_jun]).
Defined.

(** C6: for a non-empty record list the text is the rendering of the
    groups in the order of [narrative_groups]; that order is strictly
    descending in the string key (date, ver), with one group for each key
    that occurs, holding the records of that key in their original
    order; so when records of 2024-06-01/2.0.0 and of 2024-01-01/1.0.0
    are present, the group of the former comes first. *)
Theorem narrative_groups_descending (entries : list Entry) :
  entries <> [] ->
  let gs := narrative_groups entries in
  fst (format_markdown entries)
  = strip (join [newline] (List.concat (List.map render_group gs)))
  /\ StronglySorted (fun g1 g2 => key_gt (fst g1) (fst g2) = true) gs
  /\ (forall k, In k (List.map fst gs) <-> exists e, In e entries /\ key e = k)
  /\ (forall k items,
        In (k, items) gs ->
        items <> []
        /\ items = List.filter (fun e => bool_decide (key e = k)) entries)
  /\ (forall e1 e2,
        In e1 entries -> In e2 entries ->
        key e1 = (py "2024-06-01", py "2.0.0") ->
        key e2 = (py "2024-01-01", py "1.0.0") ->
        exists a b c items1 items2,
          gs = a ++ (key e1, items1) :: b ++ (key e2, items2) :: c).
Proof.
  intros Hne gs.
  split; [destruct entries; [congruence|reflexivity]|].
  split; [apply narrative_groups_sorted|].
  split; [apply narrative_groups_keys|].
  split; [apply narrative_groups_items|].
  intros e1 e2 H1 H2 K1 K2.
  assert (In (key e1) (List.map fst gs)) as G1
    by (apply narrative_groups_keys; eauto).
  assert (In (key e2) (List.map fst gs)) as G2
    by (apply narrative_groups_keys; eauto).
  apply in_map_iff in G1 as ([k1 items1] & E1 & G1).
  apply in_map_iff in G2 as ([k2 items2] & E2 & G2).
  simpl in E1, E2. subst k1 k2.
  destruct (StronglySorted_order _ gs (key e1, items1) (key e2, items2)
              (narrative_groups_sorted entries) G1 G2) as (a & b & c & Hgs).
  - rewrite K1, K2. discriminate.
  - simpl. rewrite K1, K2. discriminate.
  - exists a, b, c, items1, items2. exact Hgs.
Qed.

Lemma narrative_groups_descending_witness :
  [rec_jan; rec_jun] <> []
  /\ List.map fst (narrative_groups [rec_jan; rec_jun])
     = [(py "2024-06-01", py "2.0.0"); (py "2024-01-01", py "1.0.0")]
  /\ StronglySorted (fun g1 g2 => key_gt (fst g1) (fst g2) = true)
       (narrative_groups [rec_jan; rec_jun]).
Proof.
  split; [discriminate|]. split; [reflexivity|].
  apply (narrative_groups_descending [rec_jan; rec_jun]). discriminate.
Defined.

(** ** Registry and classification *)

Lemma overlay_lookup (builtin md_map : gmap str str) (T : str) :
  overlay builtin md_map !! T
  = match md_map !! T with
    | Some fam => Some fam
    | None => builtin !! T
    end.
Proof.
  unfold overlay. rewrite lookup_union.
  destruct (md_map !! T), (builtin !! T); reflexivity.
Qed.

Lemma truthy_nonempty (path : str) : path <> [] -> truthy (Some path) = Some path.
Proof. destruct path; [congruence|reflexivity]. Qed.

(** C3: when a registry file is named, every tag of the external mapping
    resolves to its external family, whether or not the built-in registry
    has the tag too, and every tag the external mapping lacks resolves as
    in the built-in registry. *)
Theorem get_registry_overlay (read_text : str -> option str) (path T : str) :
  path <> [] ->
  let external := load_registry_from_md read_text path in
  let resolved := get_registry read_text (Some path) in
  (forall fam, external !! T = Some fam -> resolved !! T = Some fam)
  /\ (external !! T = None -> resolved !! T = BUILTIN_REGISTRY !! T).
Proof.
  intros Hp external resolved. unfold resolved, get_registry.
  rewrite (truthy_nonempty path Hp), overlay_lookup.
  fold external. split.
  - intros fam ->. reflexivity.
  - intros ->. reflexivity.
Qed.

Lemma get_registry_overlay_witness :
  py "TAGS.md" <> []
  /\ BUILTIN_REGISTRY !! py "SEED" = Some STRUCTURAL
  /\ get_registry only_tags_md (Some (py "TAGS.md")) !! py "SEED" = Some META.
Proof.
  split; [discriminate|]. split; [reflexivity|].
  apply (get_registry_overlay only_tags_md (py "TAGS.md") (py "SEED"));
    [discriminate|reflexivity].
Defined.

Lemma taxonomy_truthy (fam : str) :
  fam ∈ taxonomy -> py_or (Some fam) UNKNOWN = fam /\ fam <> UNKNOWN.
Proof.
  unfold taxonomy. intros H.
  repeat (apply elem_of_cons in H as [->|H]; [split; [reflexivity|discriminate]|]).
  inversion H.
Qed.

Lemma enrich_one_family (registry : gmap str str) (e : Entry) :
  registry_wf registry ->
  exists fam,
    family (enrich_one registry e) = Some fam
    /\ (fam ∈ taxonomy \/ fam = UNKNOWN)
    /\ (fam = UNKNOWN <-> registry !! tag e = None).
Proof.
  intros Hwf. unfold enrich_one; simpl.
  destruct (registry !! tag e) as [fam|] eqn:E.
  - pose proof (map_Forall_lookup_1 _ _ _ _ Hwf E) as Hin. simpl in Hin.
    destruct (taxonomy_truthy fam Hin) as [Hor Hne].
    exists fam. rewrite Hor. repeat split; auto; intros; congruence.
  - exists UNKNOWN. repeat split; auto.
Qed.

(** C4: under a registry (a map from tags to the five families), every
    record that family enrichment returns carries a family; it is one of
    the five taxonomy names or "Unknown", and it is "Unknown" exactly when
    the registry has no entry for the record's tag.  The records keep
    their tags and their order. *)
Theorem enrich_with_family_total (entries : list Entry)
    (registry : gmap str str) :
  registry_wf registry ->
  List.map tag (enrich_with_family entries registry) = List.map tag entries
  /\ Forall
       (fun e2 =>
          exists fam,
            family e2 = Some fam
            /\ (fam ∈ taxonomy \/ fam = UNKNOWN)
            /\ (fam = UNKNOWN <-> registry !! tag e2 = None))
       (enrich_with_family entries registry).
Proof.
  intros Hwf. unfold enrich_with_family. split.
  - rewrite List.map_map. reflexivity.
  - apply List.Forall_forall. intros e2 Hin.
    apply in_map_iff in Hin as (e & <- & _).
    exact (enrich_one_family registry e Hwf).
Qed.

Lemma BUILTIN_REGISTRY_wf : registry_wf BUILTIN_REGISTRY.
Proof.
  unfold registry_wf. apply (bool_decide_unpack _). vm_compute. exact I.
Qed.

Lemma enrich_with_family_total_witness :
  registry_wf BUILTIN_REGISTRY
  /\ List.map family (enrich_with_family [rec_jan; rec_zzz] BUILTIN_REGISTRY)
     = [Some STRUCTURAL; Some UNKNOWN]
  /\ Forall
       (fun e2 =>
          exists fam,
            family e2 = Some fam
            /\ (fam ∈ taxonomy \/ fam = UNKNOWN)
            /\ (fam = UNKNOWN <-> BUILTIN_REGISTRY !! tag e2 = None))
       (enrich_with_family [rec_jan; rec_zzz] BUILTIN_REGISTRY).
Proof.
  assert (registry_wf BUILTIN_REGISTRY) as Hwf
    by (apply (bool_decide_unpack _); vm_compute; exact I).
  split; [exact Hwf|]. split; [reflexivity|].
  apply (enrich_with_family_total [rec_jan; rec_zzz] BUILTIN_REGISTRY).
  exact Hwf.
Defined.

(** ** The matcher is sound for the declarative reading *)

Lemma firstn_consumed (w s' : str) :
  firstn (length (w ++ s') - length s') (w ++ s') = w.
Proof.
  rewrite length_app.
  replace (length w + length s' - length s')%nat with (length w) by lia.
  rewrite firstn_app, Nat.sub_diag, firstn_all. simpl.
  apply app_nil_r.
Qed.

Lemma star_cls_sound (g : bool) (p : char -> bool) (s : str) (c : caps)
    (k : K) (res : caps) :
  star_cls g p s c k = Some res ->
  exists w s', s = w ++ s' /\ forallb p w = true /\ k s' c = Some res.
Proof.
  induction s as [|x s IH]; simpl; intros H.
  - exists [], []. auto.
  - destruct (p x) eqn:Px; [|exists [], (x :: s); auto].
    assert (star_cls g p s c k = Some res \/ k (x :: s) c = Some res) as [H'|H'].
    { destruct g.
      - destruct (star_cls true p s c k); [left; congruence|right; exact H].
      - destruct (k (x :: s) c); [right; congruence|left; exact H]. }
    + destruct (IH H') as (w & s' & -> & Hw & Hk).
      exists (x :: w), s'. simpl. rewrite Px. auto.
    + exists [], (x :: s). auto.
Qed.

Lemma rmatch_sound (r : regex) :
  forall (s : str) (c : caps) (k : K) (res : caps),
    rmatch r s c k = Some res ->
    exists w s' c',
      s = w ++ s' /\ Matches r w c c' /\ k s' c' = Some res.
Proof.
  induction r as [|p|r1 IH1 r2 IH2|r1 IH1 r2 IH2|g p|n r IH];
    intros s c k res H; simpl in H.
  - exists [], s, c. repeat split; [constructor|assumption].
  - destruct s as [|x s]; [discriminate|].
    destruct (p x) eqn:Px; [|discriminate].
    exists [x], s, c. repeat split; [now constructor|assumption].
  - apply IH1 in H as (w1 & s1 & c1 & -> & M1 & H).
    apply IH2 in H as (w2 & s2 & c2 & -> & M2 & H).
    exists (w1 ++ w2), s2, c2. rewrite <- app_assoc.
    repeat split; [econstructor; eassumption|assumption].
  - destruct (rmatch r1 s c k) eqn:E.
    + injection H as ->. apply IH1 in E as (w & s' & c' & -> & M & Hk).
      exists w, s', c'. repeat split; [now apply M_alt_l|assumption].
    + apply IH2 in H as (w & s' & c' & -> & M & Hk).
      exists w, s', c'. repeat split; [now apply M_alt_r|assumption].
  - apply star_cls_sound in H as (w & s' & -> & Hw & Hk).
    exists w, s', c. repeat split; [now constructor|assumption].
  - apply IH in H as (w & s' & c' & -> & M & Hk).
    rewrite firstn_consumed in Hk.
    exists w, s', ((n, w) :: c'). repeat split; [now constructor|assumption].
Qed.

Lemma match_sound (r : regex) (s : str) (c : caps) :
  match_ r s = Some c -> exists w s', s = w ++ s' /\ Matches r w [] c.
Proof.
  intros H. apply rmatch_sound in H as (w & s' & c' & -> & M & Hk).
  injection Hk as ->. eauto.
Qed.

Lemma search_sound (r : regex) (s : str) (c : caps) :
  search r s = Some c ->
  exists pre w post, s = pre ++ w ++ post /\ Matches r w [] c.
Proof.
  induction s as [|x s IH]; simpl.
  - destruct (match_ r []) eqn:E; [|discriminate].
    intros [= ->]. apply match_sound in E as (w & s' & Hs & M).
    exists [], w, s'. auto.
  - destruct (match_ r (x :: s)) eqn:E.
    + intros [= ->]. apply match_sound in E as (w & s' & Hs & M).
      exists [], w, s'. auto.
    + intros H. apply IH in H as (pre & w & post & -> & M).
      exists (x :: pre), w, post. auto.
Qed.

(** Inversion of the declarative reading, one form at a time. *)

Lemma Matches_Eps_inv (w : str) (c c' : caps) :
  Matches Eps w c c' -> w = [] /\ c' = c.
Proof. inversion 1; auto. Qed.

Lemma Matches_Chr_inv (p : char -> bool) (w : str) (c c' : caps) :
  Matches (Chr p) w c c' -> exists x, w = [x] /\ p x = true /\ c' = c.
Proof. inversion 1; eauto. Qed.

Lemma Matches_Seq_inv (r1 r2 : regex) (w : str) (c c2 : caps) :
  Matches (Seq r1 r2) w c c2 ->
  exists w1 w2 c1,
    w = w1 ++ w2 /\ Matches r1 w1 c c1 /\ Matches r2 w2 c1 c2.
Proof. inversion 1; subst; eauto 7. Qed.

Lemma Matches_Alt_inv (r1 r2 : regex) (w : str) (c c' : caps) :
  Matches (Alt r1 r2) w c c' -> Matches r1 w c c' \/ Matches r2 w c c'.
Proof. inversion 1; auto. Qed.

Lemma Matches_Star_inv (g : bool) (p : char -> bool) (w : str) (c c' : caps) :
  Matches (Star g p) w c c' -> forallb p w = true /\ c' = c.
Proof. inversion 1; auto. Qed.

Lemma Matches_Group_inv (n : string) (r : regex) (w : str) (c c2 : caps) :
  Matches (Group n r) w c c2 ->
  exists c1, Matches r w c c1 /\ c2 = (n, w) :: c1.
Proof. inversion 1; eauto. Qed.

Lemma Matches_Plus_inv (g : bool) (p : char -> bool) (w : str) (c c' : caps) :
  Matches (Plus g p) w c c' ->
  exists x w', w = x :: w' /\ p x = true /\ forallb p w' = true /\ c' = c.
Proof.
  unfold Plus. intros H.
  apply Matches_Seq_inv in H as (w1 & w2 & c1 & -> & H1 & H2).
  apply Matches_Chr_inv in H1 as (x & -> & Px & ->).
  apply Matches_Star_inv in H2 as (Hw & ->).
  exists x, w2. auto.
Qed.

Lemma Matches_Lit_inv (l w : str) (c c' : caps) :
  Matches (Lit l) w c c' -> w = l /\ c' = c.
Proof.
  revert w c. induction l as [|a l IH]; intros w c H.
  - now apply Matches_Eps_inv in H.
  - change (Lit (a :: l)) with (Seq (Chr (N.eqb a)) (Lit l)) in H.
    apply Matches_Seq_inv in H as (w1 & w2 & c1 & -> & H1 & H2).
    apply Matches_Chr_inv in H1 as (x & -> & Px & ->).
    apply IH in H2 as (-> & ->). apply N.eqb_eq in Px. subst. auto.
Qed.

Lemma Matches_Count_inv (n : nat) (p : char -> bool) (w : str) (c c' : caps) :
  Matches (Count n p) w c c' ->
  length w = n /\ forallb p w = true /\ c' = c.
Proof.
  revert w c. induction n as [|n IH]; intros w c H.
  - apply Matches_Eps_inv in H as (-> & ->). auto.
  - change (Count (S n) p) with (Seq (Chr p) (Count n p)) in H.
    apply Matches_Seq_inv in H as (w1 & w2 & c1 & -> & H1 & H2).
    apply Matches_Chr_inv in H1 as (x & -> & Px & ->).
    apply IH in H2 as (Hl & Hw & ->). simpl. rewrite Px, Hl. auto.
Qed.

(** One step of inversion on any hypothesis about a composite pattern. *)
Ltac minv_step :=
  match goal with
  | H : Matches (Lit _) _ _ _ |- _ =>
      apply Matches_Lit_inv in H; destruct H as [? ?]; subst
  | H : Matches (Plus _ _) _ _ _ |- _ =>
      apply Matches_Plus_inv in H; destruct H as (? & ? & ? & ? & ? & ?); subst
  | H : Matches (Count _ _) _ _ _ |- _ =>
      apply Matches_Count_inv in H; destruct H as (? & ? & ?); subst
  | H : Matches (Seq _ _) _ _ _ |- _ =>
      apply Matches_Seq_inv in H; destruct H as (? & ? & ? & ? & ? & ?); subst
  | H : Matches (Chr _) _ _ _ |- _ =>
      apply Matches_Chr_inv in H; destruct H as (? & ? & ? & ?); subst
  | H : Matches (Star _ _) _ _ _ |- _ =>
      apply Matches_Star_inv in H; destruct H as [? ?]; subst
  | H : Matches (Group _ _) _ _ _ |- _ =>
      apply Matches_Group_inv in H; destruct H as (? & ? & ?); subst
  | H : Matches Eps _ _ _ |- _ =>
      apply Matches_Eps_inv in H; destruct H as [? ?]; subst
  | H : Matches (Cat _) _ _ _ |- _ => cbn [Cat fold_right] in H
  | H : Matches (Opt _) _ _ _ |- _ => unfold Opt in H
  | H : Matches (Alt _ _) _ _ _ |- _ =>
      apply Matches_Alt_inv in H; destruct H as [H|H]
  end.

Ltac minv := repeat minv_step.

(** ** What the patterns capture *)

Lemma HDR_title (line : str) (mh : caps) :
  search HDR_RE line = Some mh ->
  exists t, group mh "title" = Some t /\ t <> [].
Proof.
  intros H. apply search_sound in H as (pre & w & post & _ & M).
  unfold HDR_RE in M. minv. simpl. eexists. split; [reflexivity|discriminate].
Qed.

Lemma prescan_nonempty (text t : str) : prescan text = Some t -> t <> [].
Proof.
  unfold prescan. destruct (search SECTION_RE text) as [m|] eqn:E;
    [|discriminate].
  apply search_sound in E as (pre & w & post & _ & M).
  unfold SECTION_RE in M. minv; simpl; intros [= <-]; discriminate.
Qed.

Lemma reg_char_upper (w : str) : forallb reg_char w = true -> upper w = w.
Proof.
  induction w as [|x w IH]; simpl; [reflexivity|].
  intros H. apply andb_prop in H as [Hx Hw]. rewrite (IH Hw). f_equal.
  unfold upper_char, reg_char, is_upper, is_digit09, is_lower in *.
  destruct ((97 <=? x) && (x <=? 122)) eqn:E; [|reflexivity].
  exfalso. b2p. lia.
Qed.

Lemma reg_shape_upper (t : str) : reg_shape t = true -> upper t = t.
Proof.
  destruct t as [|x [|y r]]; try discriminate.
  intros H. apply andb_prop in H as [Hx Hw].
  apply reg_char_upper. change (reg_char x && forallb reg_char (y :: r) = true).
  rewrite Hw. unfold reg_char. now rewrite Hx.
Qed.

Lemma TBL_group (h : str) (m : caps) :
  match_ TBL_RE h = Some m -> reg_shape (group_str m "1") = true.
Proof.
  intros H. apply match_sound in H as (w & post & _ & M).
  unfold TBL_RE in M. minv. cbn -[reg_char is_upper].
  rewrite ?app_nil_r.
  repeat match goal with H : _ = true |- _ => rewrite H; clear H end.
  reflexivity.
Qed.

Lemma DESC_group (h : str) (m : caps) :
  search DESC_RE h = Some m -> reg_shape (group_str m "tag") = true.
Proof.
  intros H. apply search_sound in H as (pre & w & post & _ & M).
  unfold DESC_RE in M. minv. cbn -[reg_char is_upper].
  rewrite ?app_nil_r.
  repeat match goal with H : _ = true |- _ => rewrite H; clear H end.
  reflexivity.
Qed.

(** ** The TAGS.md reader *)

Lemma truthy_Some (a : option str) (v : str) :
  truthy a = Some v -> a = Some v /\ v <> [].
Proof.
  destruct a as [[|c s]|]; simpl; try discriminate.
  intros [= <-]. split; [reflexivity|discriminate].
Qed.

Lemma family_map_taxonomy : Forall (fun kf => snd kf ∈ taxonomy) family_map.
Proof. apply (bool_decide_unpack _). vm_compute. exact I. Qed.

Lemma reader_ok_insert (st : gmap str str * option str) (t fam : str) :
  reader_ok st -> reg_shape t = true -> truthy (snd st) = Some fam ->
  reader_ok (<[upper t := fam]> (fst st), snd st).
Proof.
  intros [Hreg Hcur] Ht Hfam. apply truthy_Some in Hfam as [Hfam _].
  rewrite (reg_shape_upper t Ht).
  split; simpl; [|assumption].
  intros t' fam' Hl. apply lookup_insert_Some in Hl as [[<- <-]|[_ Hl]]; eauto.
Qed.

Lemma registry_line_ok (st : gmap str str * option str) (line : str) :
  reader_ok st -> reader_ok (registry_line st line).
Proof.
  intros Hok. unfold registry_line.
  destruct (startswith (py "## ") (strip line)).
  - destruct (List.find _ family_map) as [kf|] eqn:E; [|assumption].
    apply find_some in E as [Hin _].
    destruct Hok as [Hreg _]. split; simpl; [assumption|].
    intros fam [= <-].
    pose proof family_map_taxonomy as Hall.
    rewrite List.Forall_forall in Hall. now apply Hall.
  - destruct (match_ TBL_RE (strip line)) as [m_tbl|] eqn:Etbl.
    + destruct (truthy (snd st)) as [fam|] eqn:Efam.
      * apply reader_ok_insert; eauto using TBL_group.
      * destruct (search DESC_RE (strip line)); assumption.
    + destruct (search DESC_RE (strip line)) as [m_desc|] eqn:Edesc;
        [|assumption].
      destruct (truthy (snd st)) as [fam|] eqn:Efam; [|assumption].
      apply reader_ok_insert; eauto using DESC_group.
Qed.

Lemma registry_fold_ok (lines : list str) (st : gmap str str * option str) :
  reader_ok st -> reader_ok (fold_left registry_line lines st).
Proof.
  revert st. induction lines as [|l lines IH]; intros st Hok; simpl;
    [assumption|].
  apply IH, registry_line_ok, Hok.
Qed.

Lemma load_registry_ok (read_text : str -> option str) (path t fam : str) :
  load_registry_from_md read_text path !! t = Some fam ->
  reg_shape t = true /\ fam ∈ taxonomy.
Proof.
  unfold load_registry_from_md, registry_of_text.
  destruct (read_text path) as [text|]; [|now rewrite lookup_empty].
  apply registry_fold_ok. split; simpl; [|discriminate].
  intros t' fam'. now rewrite lookup_empty.
Qed.

Lemma get_registry_lookup (read_text : str -> option str)
    (tags_reg : option str) (t : str) :
  get_registry read_text tags_reg !! t
  = match truthy tags_reg with
    | Some path =>
        match load_registry_from_md read_text path !! t with
        | Some fam => Some fam
        | None => BUILTIN_REGISTRY !! t
        end
    | None => BUILTIN_REGISTRY !! t
    end.
Proof.
  unfold get_registry. destruct (truthy tags_reg); [|reflexivity].
  apply overlay_lookup.
Qed.

(** Every registry that [get_registry] builds maps tags to taxonomy
    names. *)
Lemma get_registry_wf (read_text : str -> option str) (tags_reg : option str) :
  registry_wf (get_registry read_text tags_reg).
Proof.
  unfold registry_wf. apply map_Forall_lookup. intros t fam.
  rewrite get_registry_lookup.
  pose proof BUILTIN_REGISTRY_wf as Hb.
  unfold registry_wf in Hb. rewrite map_Forall_lookup in Hb.
  destruct (truthy tags_reg) as [path|]; [|apply Hb].
  destruct (load_registry_from_md read_text path !! t) as [fam'|] eqn:E;
    [|apply Hb].
  intros [= <-]. apply (load_registry_ok _ _ _ _ E).
Qed.

Lemma reg_shape_chars (t : str) :
  reg_shape t = true -> forallb reg_char t = true /\ (2 <= length t)%nat.
Proof.
  destruct t as [|x [|y r]]; try discriminate.
  intros H. apply andb_prop in H as [Hx Hw]. split; [|simpl; lia].
  change (reg_char x && forallb reg_char (y :: r) = true).
  rewrite Hw. unfold reg_char. now rewrite Hx.
Qed.

Lemma reg_shape_excludes (t : str) :
  In 45 t \/ In 126 t \/ In sinewave t \/ length t = 1%nat ->
  reg_shape t = false.
Proof.
  intros H. destruct (reg_shape t) eqn:E; [|reflexivity].
  apply reg_shape_chars in E as [Hall Hlen].
  rewrite forallb_forall in Hall.
  destruct H as [H|[H|[H|H]]]; try (apply Hall in H; discriminate).
  lia.
Qed.

(** C10: the external mapping only holds tags of the shape
    [[A-Z][A-Z0-9_]+].  So a tag name with a hyphen, a tilde or the sine
    wave sign, or of a single character (the annotation grammar accepts
    such names), is never in the external mapping: the resolved registry
    gives it what the built-in registry gives it, and enrichment
    classifies it by the built-in registry or as "Unknown". *)
Theorem external_registry_tag_shape (read_text : str -> option str)
    (path : str) (tags_reg : option str) (t : str) :
  (is_Some (load_registry_from_md read_text path !! t) -> reg_shape t = true)
  /\ (In 45 t \/ In 126 t \/ In sinewave t \/ length t = 1%nat ->
      load_registry_from_md read_text path !! t = None
      /\ get_registry read_text tags_reg !! t = BUILTIN_REGISTRY !! t
      /\ forall e,
           tag e = t ->
           family (enrich_one (get_registry read_text tags_reg) e)
           = Some (py_or (BUILTIN_REGISTRY !! t) UNKNOWN)).
Proof.
  split.
  - intros [fam Hfam]. apply (load_registry_ok _ _ _ _ Hfam).
  - intros Hbad. apply reg_shape_excludes in Hbad.
    assert (forall p, load_registry_from_md read_text p !! t = None) as Hnone.
    { intros p. destruct (load_registry_from_md read_text p !! t) eqn:E;
        [|reflexivity].
      apply load_registry_ok in E as [E _]. congruence. }
    assert (get_registry read_text tags_reg !! t = BUILTIN_REGISTRY !! t) as Hg.
    { rewrite get_registry_lookup. destruct (truthy tags_reg); [|reflexivity].
      now rewrite Hnone. }
    split; [apply Hnone|]. split; [exact Hg|].
    intros e <-. unfold enrich_one. cbn [family]. rewrite Hg. reflexivity.
Qed.

Lemma external_registry_tag_shape_witness :
  In 45 (py "ARC-CLIMAX")
  /\ get_registry only_tags_md (Some (py "TAGS.md")) !! py "ARC-CLIMAX"
     = BUILTIN_REGISTRY !! py "ARC-CLIMAX".
Proof.
  assert (In 45 (py "ARC-CLIMAX")) as Hin by (simpl; tauto).
  split; [exact Hin|].
  destruct (external_registry_tag_shape only_tags_md (py "TAGS.md")
              (Some (py "TAGS.md")) (py "ARC-CLIMAX")) as [_ H].
  destruct (H (or_introl Hin)) as (_ & Hreg & _). exact Hreg.
Defined.

(** ** The unknown-tags diagnostic *)

#[local] Instance str_notafter_trans :
  Transitive (fun a b : str => str_lt b a = false).
Proof.
  intros a b c H1 H2.
  destruct (str_lt c a) eqn:E; [|reflexivity].
  destruct (str_lt a b) eqn:E3.
  - rewrite (str_lt_trans _ _ _ E E3) in H2. discriminate.
  - assert (a = b) by now apply str_lt_total. subst. congruence.
Qed.

Lemma unknowns_perm (enriched : list Entry) :
  Permutation (unknowns enriched) (elements (unknown_set enriched)).
Proof. apply stable_sort_perm. Qed.

Lemma unknowns_In (enriched : list Entry) (u : str) :
  In u (unknowns enriched)
  <-> exists e, In e enriched /\ tag e = u /\ family e = Some UNKNOWN.
Proof.
  assert (In u (unknowns enriched) <-> u ∈ unknown_set enriched) as ->.
  { rewrite <- elem_of_elements, list_elem_of_In.
    split; apply Permutation_in;
      [apply unknowns_perm|symmetry; apply unknowns_perm]. }
  unfold unknown_set. rewrite elem_of_list_to_set, list_elem_of_In.
  rewrite in_map_iff. split.
  - intros (e & Ht & He). apply filter_In in He as [He Hf].
    apply bool_decide_eq_true in Hf. eauto.
  - intros (e & He & Ht & Hf). exists e. split; [assumption|].
    apply filter_In. split; [assumption|]. now apply bool_decide_eq_true.
Qed.

Lemma unknowns_NoDup (enriched : list Entry) : List.NoDup (unknowns enriched).
Proof.
  eapply Permutation_NoDup; [symmetry; apply unknowns_perm|].
  apply NoDup_ListNoDup, NoDup_elements.
Qed.

Lemma unknowns_sorted (enriched : list Entry) :
  StronglySorted (fun a b => str_lt a b = true) (unknowns enriched).
Proof.
  apply (StronglySorted_strict id (fun a b : str => str_lt b a = false)).
  - intros x y Hxy Hne. destruct (str_lt x y) eqn:E; [reflexivity|].
    exfalso. apply Hne. now apply str_lt_total.
  - rewrite List.map_id. apply unknowns_NoDup.
  - apply Sorted_StronglySorted; [apply str_notafter_trans|].
    apply (stable_sort_sorted str_lt). apply str_lt_asym.
Qed.

(** C9: a tag that neither the built-in registry nor the external mapping
    has is classified "Unknown" in every record that carries it, and it
    occurs exactly once in the diagnostic list, however many records carry
    it; the diagnostic list is strictly ascending (sorted, no duplicate)
    and holds exactly the tags of the records whose family is
    "Unknown". *)
Theorem unknown_tag_listed_once (read_text : str -> option str)
    (tags_reg : option str) (entries : list Entry) (t : str) :
  BUILTIN_REGISTRY !! t = None ->
  (forall path, truthy tags_reg = Some path ->
                load_registry_from_md read_text path !! t = None) ->
  In t (List.map tag entries) ->
  let enriched :=
    enrich_with_family entries (get_registry read_text tags_reg) in
  (forall e, In e enriched -> tag e = t -> family e = Some UNKNOWN)
  /\ count_occ (fun a b : str => decide (a = b)) (unknowns enriched) t = 1%nat
  /\ StronglySorted (fun a b => str_lt a b = true) (unknowns enriched)
  /\ (forall u,
        In u (unknowns enriched)
        <-> exists e, In e enriched /\ tag e = u /\ family e = Some UNKNOWN).
Proof.
  intros Hb Hext Hin enriched.
  assert (get_registry read_text tags_reg !! t = None) as Hnone.
  { rewrite get_registry_lookup.
    destruct (truthy tags_reg) as [path|] eqn:E; [|assumption].
    now rewrite (Hext path eq_refl). }
  assert (forall e, In e enriched -> tag e = t -> family e = Some UNKNOWN)
    as Hfam.
  { intros e2 He2 Ht. unfold enriched, enrich_with_family in He2.
    apply in_map_iff in He2 as (e & <- & _).
    unfold enrich_one in *. cbn [family tag] in *. rewrite Ht, Hnone.
    reflexivity. }
  split; [exact Hfam|].
  split; [|split; [apply unknowns_sorted|apply unknowns_In]].
  apply NoDup_count_occ'; [apply unknowns_NoDup|].
  apply unknowns_In. apply in_map_iff in Hin as (e & Ht & He).
  exists (enrich_one (get_registry read_text tags_reg) e).
  split; [apply in_map, He|].
  split; [exact Ht|]. apply Hfam; [apply in_map, He|exact Ht].
Qed.

Lemma unknown_tag_listed_once_witness :
  unknowns
    (enrich_with_family [rec_zzz; rec_jan; rec_zzz]
       (get_registry only_tags_md (Some (py "TAGS.md"))))
  = [py "ZZZTOP"]
  /\ count_occ (fun a b : str => decide (a = b))
       (unknowns
          (enrich_with_family [rec_zzz; rec_jan; rec_zzz]
             (get_registry only_tags_md (Some (py "TAGS.md")))))
       (py "ZZZTOP") = 1%nat.
Proof.
  split; [vm_compute; reflexivity|].
  destruct (unknown_tag_listed_once only_tags_md (Some (py "TAGS.md"))
              [rec_zzz; rec_jan; rec_zzz] (py "ZZZTOP")) as (_ & H & _).
  - vm_compute. reflexivity.
  - intros path [= <-]. vm_compute. reflexivity.
  - left. reflexivity.
  - exact H.
Defined.

(** ** The tracker *)

Lemma is_open_false (line : str) :
  is_open line = false ->
  search HDR_RE line = None /\ search FTR_RE line = None.
Proof.
  unfold is_open. intros H. apply orb_false_elim in H as [H1 H2].
  apply bool_decide_eq_false in H1, H2.
  split; [destruct (search HDR_RE line)|destruct (search FTR_RE line)];
    try reflexivity; exfalso; eauto.
Qed.

Lemma is_open_true (line : str) :
  is_open line = true ->
  is_Some (search HDR_RE line)
  \/ (search HDR_RE line = None /\ is_Some (search FTR_RE line)).
Proof.
  unfold is_open. intros H.
  destruct (search HDR_RE line) as [mh|]; [left; eauto|right].
  split; [reflexivity|].
  apply orb_prop in H as [H|H]; apply bool_decide_eq_true in H;
    [destruct H; discriminate|assumption].
Qed.

Lemma is_close_true (line : str) :
  is_close line = true -> is_Some (search END_RE line).
Proof. unfold is_close. apply bool_decide_eq_true. Qed.

Lemma is_close_false (line : str) :
  is_close line = false -> search END_RE line = None.
Proof.
  unfold is_close. intros H. apply bool_decide_eq_false in H.
  destruct (search END_RE line); [exfalso; eauto|reflexivity].
Qed.

Lemma scrape_line_transition (path : str) (sec : option str) (st : tracker)
    (line : str) :
  transition st line = true -> snd (scrape_line path sec st line) = [].
Proof.
  unfold transition, scrape_line. destruct (in_ledger st); simpl; intros H.
  - apply is_close_true in H as [m ->]. reflexivity.
  - apply is_open_true in H as [[m ->]|[-> [m ->]]]; reflexivity.
Qed.

Lemma scrape_line_steady (path : str) (sec : option str) (st : tracker)
    (line : str) :
  transition st line = false ->
  scrape_line path sec st line = (st, tag_entry path sec st line).
Proof.
  unfold transition, scrape_line. destruct (in_ledger st); simpl; intros H.
  - apply is_close_false in H as ->. reflexivity.
  - apply is_open_false in H as [-> ->]. reflexivity.
Qed.

Lemma scrape_line_ok (path : str) (sec : option str) (st : tracker)
    (line : str) :
  tracker_ok st -> tracker_ok (fst (scrape_line path sec st line)).
Proof.
  intros Hok. destruct (transition st line) eqn:T.
  - unfold transition in T. unfold scrape_line.
    destruct (in_ledger st); simpl.
    + apply is_close_true in T as [m ->]. reflexivity.
    + apply is_open_true in T as [[m Hm]|[-> [m ->]]].
      * rewrite Hm. simpl. apply (HDR_title _ _ Hm).
      * simpl. unfold tracker_ok; simpl. eexists. split; [reflexivity|].
        destruct sec as [[|x t]|]; discriminate.
  - now rewrite scrape_line_steady.
Qed.

Lemma track_ok (path : str) (sec : option str) (lines : list str)
    (st : tracker) :
  tracker_ok st -> tracker_ok (track path sec st lines).
Proof.
  revert st. induction lines as [|l lines IH]; intros st Hok; simpl;
    [assumption|].
  apply IH, scrape_line_ok, Hok.
Qed.

Lemma track_app (path : str) (sec : option str) (st : tracker)
    (pre post : list str) :
  track path sec st (pre ++ post)
  = track path sec (track path sec st pre) post.
Proof. unfold track. apply fold_left_app. Qed.

Lemma scrape_lines_app (path : str) (sec : option str) (pre post : list str)
    (st : tracker) :
  scrape_lines path sec st (pre ++ post)
  = scrape_lines path sec st pre
    ++ scrape_lines path sec (track path sec st pre) post.
Proof.
  revert st. induction pre as [|l pre IH]; intros st; simpl; [reflexivity|].
  now rewrite IH, <- app_assoc.
Qed.

(** The title chosen by [ledger_title or section_title or "(unknown
    section)"] is the one of the tracker state. *)
Lemma py_or_context (sec : option str) (st : tracker) :
  tracker_ok st -> sec <> Some [] ->
  py_or (ledger_title st) (py_or sec UNKNOWN_SECTION) = title_context sec st.
Proof.
  unfold tracker_ok, title_context. destruct (in_ledger st).
  - intros (t & -> & Ht) _. destruct t; [congruence|reflexivity].
  - intros -> Hsec. destruct sec as [[|x t]|]; try reflexivity. congruence.
Qed.

(** C2, as the specification states it, fails: a line that opens a ledger
    is not searched for a tag.  The header line below carries a complete
    annotation, and scraping it records nothing. *)
Lemma header_line_tag_skipped :
  is_Some (search TAG_RE header_with_tag)
  /\ scrape_text (py "a.tex") header_with_tag = [].
Proof. split; [vm_compute; eauto|reflexivity]. Qed.

(** C2, amended: tag matching is attempted on every line except the lines
    on which the tracker changes state (a ledger-open line read outside a
    ledger, a ledger-close line read inside one), which record nothing.
    On every other line, inside or outside a ledger, a matched tag is
    recorded with the title that applies: the ledger title inside a
    ledger, else the section title, else "(unknown section)". *)
Theorem tag_recorded_with_context (path text : str) (pre : list str)
    (line : str) (post : list str) :
  splitlines text = pre ++ line :: post ->
  let sec := prescan text in
  let st := track path sec tracker0 pre in
  let recorded :=
    if transition st line then []
    else match search TAG_RE line with
         | Some mt => [entry_of path (title_context sec st) mt]
         | None => []
         end in
  scrape_text path text
  = scrape_lines path sec tracker0 pre ++ recorded
    ++ scrape_lines path sec (fst (scrape_line path sec st line)) post
  /\ tracker_ok st.
Proof.
  intros Hlines sec st recorded.
  assert (tracker_ok st) as Hok by (apply track_ok; reflexivity).
  split; [|exact Hok].
  unfold scrape_text. rewrite Hlines, scrape_lines_app. fold sec st.
  f_equal. simpl. f_equal. unfold recorded.
  destruct (transition st line) eqn:T.
  - now apply scrape_line_transition.
  - rewrite scrape_line_steady by assumption. simpl. unfold tag_entry.
    rewrite py_or_context; [reflexivity|assumption|].
    intros Hsec. now apply prescan_nonempty in Hsec.
Qed.

Lemma tag_recorded_with_context_witness :
  List.map section (scrape_text (py "a.tex") origins_doc) = [py "Origins"]
  /\ tracker_ok
       (track (py "a.tex") (prescan origins_doc) tracker0 [origins_header]).
Proof.
  split; [reflexivity|].
  apply (tag_recorded_with_context (py "a.tex") origins_doc
           [origins_header] seed_line []).
  reflexivity.
Defined.

(** A line read outside a ledger is tested for the opening patterns only
    (lines 145-153): a ledger opened and closed on one line is read as an
    opening line, the close pattern in its text is not seen by the
    tracker, and the annotation on the following line is attributed to
    the ledger. *)
Lemma one_line_ledger_stays_open :
  is_close one_line_ledger = true
  /\ is_open seed_line = false
  /\ in_ledger (track (py "a.tex") None tracker0 [one_line_ledger]) = true
  /\ List.map section
       (scrape_lines (py "a.tex") None tracker0 [one_line_ledger; seed_line])
     = [py "Origins"].
Proof. repeat split. Qed.

Lemma track_no_open (path : str) (sec : option str) (mid : list str)
    (st : tracker) :
  in_ledger st = false ->
  Forall (fun m => is_open m = false) mid ->
  track path sec st mid = st.
Proof.
  intros Hout Hmid. induction Hmid as [|m mid Hm _ IH]; simpl; [reflexivity|].
  rewrite scrape_line_steady; [exact IH|].
  unfold transition. now rewrite Hout.
Qed.

(** C7: once the tracker has seen a ledger-close pattern, that is, has read
    a line with the pattern inside a ledger, where the pattern is tested
    (line 155), the tracker is outside any ledger with the ledger title
    cleared, and it stays so as long as no line carries a ledger-open
    pattern; a record made from a later line is then attributed to the
    section title or the unknown-section sentinel, not to a ledger title.
    The same holds after a line with the close pattern that is read
    outside a ledger and opens none. *)
Theorem close_then_outside (path : str) (sec : option str) (pre : list str)
    (c : str) (mid : list str) (l : str) :
  is_close c = true ->
  in_ledger (track path sec tracker0 pre) = true \/ is_open c = false ->
  Forall (fun m => is_open m = false) mid ->
  let st := track path sec tracker0 (pre ++ c :: mid) in
  in_ledger st = false
  /\ ledger_title st = None
  /\ Forall (fun e => section e = py_or sec UNKNOWN_SECTION)
       (snd (scrape_line path sec st l)).
Proof.
  intros Hclose Hcase Hmid st.
  set (s1 := track path sec tracker0 pre).
  assert (tracker_ok s1) as Hok1 by (apply track_ok; reflexivity).
  set (s2 := fst (scrape_line path sec s1 c)).
  assert (in_ledger s2 = false /\ ledger_title s2 = None) as [Hin2 Ht2].
  { unfold s2. destruct (in_ledger s1) eqn:E1.
    - unfold scrape_line. rewrite E1. simpl.
      apply is_close_true in Hclose as [m ->]. auto.
    - destruct Hcase as [Hcase|Hopen]; [fold s1 in Hcase; congruence|].
      rewrite scrape_line_steady by (unfold transition; now rewrite E1).
      simpl. split; [assumption|].
      unfold tracker_ok in Hok1. now rewrite E1 in Hok1. }
  assert (st = s2) as ->.
  { unfold st. rewrite track_app. simpl. fold s1. fold s2.
    now apply track_no_open. }
  split; [assumption|]. split; [assumption|].
  unfold scrape_line. rewrite Hin2. simpl.
  destruct (search HDR_RE l); [constructor|].
  destruct (search FTR_RE l); [constructor|].
  simpl. unfold tag_entry. rewrite Ht2.
  destruct (search TAG_RE l); constructor; [reflexivity|constructor].
Qed.

Lemma close_then_outside_witness :
  is_close (py "\end{SectionHeaderLedger}") = true
  /\ List.map section
       (scrape_lines (py "a.tex") None tracker0 (origins_ledger ++ [seed_line]))
     = [py "Origins"; py "(unknown section)"]
  /\ in_ledger (track (py "a.tex") None tracker0 origins_ledger) = false.
Proof.
  split; [reflexivity|]. split; [reflexivity|].
  apply (close_then_outside (py "a.tex") None [origins_header; seed_line]
           (py "\end{SectionHeaderLedger}") [] seed_line).
  - reflexivity.
  - left. reflexivity.
  - constructor.
Defined.

(** ** The first alternative of the matcher *)

Lemma Consumes_Eps (s : str) (c : caps) : Consumes Eps [] s c c.
Proof. intros k res H. exact H. Qed.

Lemma Consumes_Chr (p : char -> bool) (x : char) (s : str) (c : caps) :
  p x = true -> Consumes (Chr p) [x] s c c.
Proof. intros Px k res H. simpl. now rewrite Px. Qed.

Lemma Consumes_Seq (r1 r2 : regex) (w1 w2 s : str) (c c1 c2 : caps) :
  Consumes r1 w1 (w2 ++ s) c c1 -> Consumes r2 w2 s c1 c2 ->
  Consumes (Seq r1 r2) (w1 ++ w2) s c c2.
Proof.
  intros H1 H2 k res Hk. simpl. rewrite <- app_assoc.
  apply H1. now apply H2.
Qed.

Lemma Consumes_Alt_l (r1 r2 : regex) (w s : str) (c c' : caps) :
  Consumes r1 w s c c' -> Consumes (Alt r1 r2) w s c c'.
Proof. intros H k res Hk. simpl. now rewrite (H k res Hk). Qed.

Lemma Consumes_Opt_skip (r : regex) (s : str) (c : caps) :
  (forall k, rmatch r s c k = None) -> Consumes (Opt r) [] s c c.
Proof. intros H k res Hk. simpl. now rewrite H. Qed.

Lemma Consumes_Group (n : string) (r : regex) (w s : str) (c c' : caps) :
  Consumes r w s c c' -> Consumes (Group n r) w s c ((n, w) :: c').
Proof.
  intros H k res Hk. simpl. apply H. now rewrite firstn_consumed.
Qed.

Lemma Consumes_Star (p : char -> bool) (w s : str) (c : caps) :
  forallb p w = true -> stops p s = true -> Consumes (Star true p) w s c c.
Proof.
  intros Hw Hs k res Hk. simpl.
  induction w as [|x w IH]; simpl.
  - destruct s as [|y s]; simpl; [assumption|].
    simpl in Hs. apply negb_true_iff in Hs. now rewrite Hs.
  - simpl in Hw. apply andb_prop in Hw as [Px Hw].
    now rewrite Px, (IH Hw).
Qed.

Lemma Consumes_Plus (p : char -> bool) (x : char) (w s : str) (c : caps) :
  p x = true -> forallb p w = true -> stops p s = true ->
  Consumes (Plus true p) (x :: w) s c c.
Proof.
  intros Px Hw Hs. unfold Plus.
  apply (Consumes_Seq _ _ [x] w s c c c).
  - now apply Consumes_Chr.
  - now apply Consumes_Star.
Qed.

Lemma Consumes_Lit (l s : str) (c : caps) : Consumes (Lit l) l s c c.
Proof.
  induction l as [|a l IH].
  - apply Consumes_Eps.
  - change (Lit (a :: l)) with (Seq (Chr (N.eqb a)) (Lit l)).
    apply (Consumes_Seq _ _ [a] l s c c c); [|exact IH].
    apply Consumes_Chr, N.eqb_refl.
Qed.

Lemma Consumes_Count (n : nat) (p : char -> bool) (w s : str) (c : caps) :
  length w = n -> forallb p w = true -> Consumes (Count n p) w s c c.
Proof.
  revert w. induction n as [|n IH]; intros [|x w] Hl Hw; try discriminate.
  - apply Consumes_Eps.
  - change (Count (S n) p) with (Seq (Chr p) (Count n p)).
    simpl in Hw. apply andb_prop in Hw as [Px Hw].
    apply (Consumes_Seq _ _ [x] w s c c c).
    + now apply Consumes_Chr.
    + apply IH; [now injection Hl|assumption].
Qed.

Lemma Consumes_match (r : regex) (w : str) (c : caps) :
  Consumes r w [] [] c -> search r w = Some c.
Proof.
  intros H.
  assert (match_ r w = Some c) as Hm.
  { unfold match_. rewrite <- (app_nil_r w). now apply H. }
  destruct w; simpl; now rewrite Hm.
Qed.

(** ** Characters and trimming *)

Lemma digit_not_space (c : char) : isdigit c = true -> isspace c = false.
Proof.
  unfold isdigit. rewrite existsb_exists. intros ([b n] & Hin & Hb).
  unfold in_block in Hb. simpl in Hb.
  assert (48 <= c /\ c <> 133 /\ c <> 160 /\ c <> 5760
          /\ ~ (8192 <= c <= 8202) /\ c <> 8232 /\ c <> 8233 /\ c <> 8239
          /\ c <> 8287 /\ c <> 12288) as Hc.
  { unfold digit_blocks in Hin. simpl in Hin. b2p.
    repeat (destruct Hin as [Hin|Hin]; [injection Hin as <- <-; lia|]).
    destruct Hin. }
  unfold isspace. b2p. lia.
Qed.

Lemma upper_char_idem (c : char) : upper_char (upper_char c) = upper_char c.
Proof.
  unfold upper_char, is_lower.
  destruct ((97 <=? c) && (c <=? 122)) eqn:E; [|now rewrite E].
  destruct ((97 <=? c - 32) && (c - 32 <=? 122)) eqn:E'; [|reflexivity].
  exfalso. b2p. lia.
Qed.

Lemma upper_idem (s : str) : upper (upper s) = upper s.
Proof.
  unfold upper. rewrite List.map_map. apply map_ext. apply upper_char_idem.
Qed.

Lemma upper_alpha (c : char) : is_alpha c = true -> is_alpha (upper_char c) = true.
Proof.
  unfold upper_char, is_alpha, is_upper, is_lower.
  destruct ((97 <=? c) && (c <=? 122)) eqn:E; intros H; b2p; lia.
Qed.

Lemma upper_tag_char (c : char) :
  tag_char c = true -> tag_char (upper_char c) = true.
Proof.
  unfold upper_char, tag_char, is_alpha, is_upper, is_lower, is_digit09,
    sinewave.
  destruct ((97 <=? c) && (c <=? 122)) eqn:E; intros H; b2p; lia.
Qed.

Lemma forallb_upper (p : char -> bool) (s : str) :
  (forall c, p c = true -> p (upper_char c) = true) ->
  forallb p s = true -> forallb p (upper s) = true.
Proof.
  intros Hp. induction s as [|x s IH]; simpl; [auto|].
  intros H. apply andb_prop in H as [Hx Hs]. now rewrite (Hp x Hx), IH.
Qed.

Lemma lstrip_head (s : str) (x : char) (t : str) :
  lstrip s = x :: t -> isspace x = false.
Proof.
  induction s as [|y s IH]; simpl; [discriminate|].
  destruct (isspace y) eqn:E; [exact IH|]. intros [= <- _]. exact E.
Qed.

Lemma lstrip_fix (s : str) : stops isspace s = true -> lstrip s = s.
Proof.
  destruct s as [|x s]; simpl; [reflexivity|].
  intros H. apply negb_true_iff in H. now rewrite H.
Qed.

Lemma lstrip_stops (s : str) : stops isspace (lstrip s) = true.
Proof.
  destruct (lstrip s) as [|x t] eqn:E; [reflexivity|].
  simpl. now rewrite (lstrip_head _ _ _ E).
Qed.

Lemma lstrip_idem (s : str) : lstrip (lstrip s) = lstrip s.
Proof. apply lstrip_fix, lstrip_stops. Qed.

Lemma lstrip_suffix (s : str) : exists p, s = p ++ lstrip s.
Proof.
  induction s as [|x s [p IH]]; simpl; [now exists []|].
  destruct (isspace x); [|now exists []].
  exists (x :: p). simpl. now rewrite <- IH.
Qed.

Lemma rstrip_prefix (u : str) : exists t, u = rstrip u ++ t.
Proof.
  unfold rstrip. destruct (lstrip_suffix (rev u)) as [p Hp].
  exists (rev p). rewrite <- rev_app_distr, <- Hp. now rewrite rev_involutive.
Qed.

Lemma rstrip_idem (u : str) : rstrip (rstrip u) = rstrip u.
Proof. unfold rstrip. now rewrite rev_involutive, lstrip_idem. Qed.

Lemma strip_stops (s : str) : stops isspace (strip s) = true.
Proof.
  unfold strip. destruct (rstrip_prefix (lstrip s)) as [t Ht].
  destruct (rstrip (lstrip s)) as [|x r] eqn:E; [reflexivity|].
  simpl in *. now rewrite (lstrip_head _ _ _ Ht).
Qed.

Lemma strip_idem (s : str) : strip (strip s) = strip s.
Proof.
  unfold strip at 1. rewrite (lstrip_fix _ (strip_stops s)).
  unfold strip. apply rstrip_idem.
Qed.

Lemma forallb_strip (p : char -> bool) (s : str) :
  forallb p s = true -> forallb p (strip s) = true.
Proof.
  unfold strip. intros H.
  destruct (lstrip_suffix s) as [p1 H1].
  destruct (rstrip_prefix (lstrip s)) as [t H2].
  rewrite H1, forallb_app in H. apply andb_prop in H as [_ H].
  rewrite H2, forallb_app in H. now apply andb_prop in H as [H _].
Qed.

(** ** The annotation pattern *)

Lemma Consumes_Seq_Eps (r : regex) (w s : str) (c c' : caps) :
  Consumes r w s c c' -> Consumes (Seq r Eps) w s c c'.
Proof. intros H k res Hk. simpl. apply H. exact Hk. Qed.

(** What a match of [TAG_RE] captured. *)
Lemma TAG_RE_shape (line : str) (mt : caps) :
  search TAG_RE line = Some mt ->
  exists (cl : caps) (t : char) (T' D1 D2 D3 : str) (a : char) (A : str)
         (b : char) (B : str) (c : char) (C : str) (n : char) (N' : str),
    mt = ("narr"%string, n :: N')
         :: ("ver"%string, (a :: A) ++ py "." ++ (b :: B) ++ py "." ++ c :: C)
         :: ("date"%string, D1 ++ py "-" ++ D2 ++ py "-" ++ D3)
         :: ("tag"%string, t :: T') :: cl
    /\ (cl = []
        \/ exists l L', cl = [("layer"%string, l :: L')]
                        /\ is_alpha l = true /\ forallb is_alpha L' = true)
    /\ (tag_char t = true /\ forallb tag_char T' = true)
    /\ (length D1 = 4%nat /\ forallb isdigit D1 = true)
    /\ (length D2 = 2%nat /\ forallb isdigit D2 = true)
    /\ (length D3 = 2%nat /\ forallb isdigit D3 = true)
    /\ (isdigit a = true /\ forallb isdigit A = true)
    /\ (isdigit b = true /\ forallb isdigit B = true)
    /\ (isdigit c = true /\ forallb isdigit C = true)
    /\ (dot n = true /\ forallb dot N' = true).
Proof.
  intros H. apply search_sound in H as (pre & w & post & _ & M).
  unfold TAG_RE, LAYER_OPT, DATE, VER in M. minv; rewrite ?app_nil_r.
  - do 14 eexists. split; [reflexivity|].
    split; [right; do 2 eexists; repeat split; eassumption|].
    repeat split; eassumption.
  - do 14 eexists. split; [reflexivity|].
    split; [left; reflexivity|].
    repeat split; eassumption.
Qed.

Lemma Consumes_then (r R : regex) (w s : str) (c c1 : caps) (k : K)
    (res : caps) :
  Consumes r w s c c1 -> rmatch R s c1 k = Some res ->
  rmatch (Seq r R) (w ++ s) c k = Some res.
Proof. intros HC HR. simpl. now apply HC. Qed.

Lemma search_of_match (r : regex) (w : str) (c : caps) :
  match_ r w = Some c -> search r w = Some c.
Proof. intros Hm. destruct w; simpl; now rewrite Hm. Qed.

(** A line in the layout of [format_line] is matched from its first
    character up to the dash; the match goes on as the last two items of
    the pattern, the whitespace and the note, do on the rest [s]. *)
Lemma TAG_RE_head (lay : str) (cl : caps) (t : char) (T' D1 D2 D3 : str)
    (a : char) (A : str) (b : char) (B : str) (c : char) (C : str)
    (s : str) (res : caps) :
  (lay = [] /\ cl = [])
  \/ (exists l L', lay = py "[" ++ (l :: L') ++ py "]"
                   /\ cl = [("layer"%string, l :: L')]
                   /\ is_alpha l = true /\ forallb is_alpha L' = true) ->
  tag_char t = true /\ forallb tag_char T' = true ->
  length D1 = 4%nat /\ forallb isdigit D1 = true ->
  length D2 = 2%nat /\ forallb isdigit D2 = true ->
  length D3 = 2%nat /\ forallb isdigit D3 = true ->
  isdigit a = true /\ forallb isdigit A = true ->
  isdigit b = true /\ forallb isdigit B = true ->
  isdigit c = true /\ forallb isdigit C = true ->
  rmatch (Seq (Plus true isspace) (Seq (Group "narr" (Plus true dot)) Eps)) s
    (("ver"%string, (a :: A) ++ py "." ++ (b :: B) ++ py "." ++ c :: C)
     :: ("date"%string, D1 ++ py "-" ++ D2 ++ py "-" ++ D3)
     :: ("tag"%string, t :: T') :: cl) accept
  = Some res ->
  match_ TAG_RE
    (py "\Tag" ++ lay ++ py "{" ++ (t :: T') ++ py "}" ++ [32]
     ++ (D1 ++ py "-" ++ D2 ++ py "-" ++ D3) ++ [32] ++ py "v"
     ++ ((a :: A) ++ py "." ++ (b :: B) ++ py "." ++ c :: C)
     ++ [32] ++ [emdash] ++ s)
  = Some res.
Proof.
  intros Hlay [Ht HT] [HD1 HD1'] [HD2 HD2'] [HD3 HD3'] [Ha HA] [Hb HB]
    [Hc HC] Htail.
  destruct D1 as [|d D1r]; [discriminate|].
  assert (isspace d = false) as Hd.
  { simpl in HD1'. apply andb_prop in HD1' as [Hd _].
    now apply digit_not_space. }
  unfold match_, TAG_RE. cbn [Cat fold_right].
  eapply Consumes_then; [apply Consumes_Lit|].
  eapply Consumes_then.
  { instantiate (1 := cl).
    destruct Hlay as [[-> ->]|(l & L' & -> & -> & Hl & HL)].
    - apply Consumes_Opt_skip. reflexivity.
    - unfold LAYER_OPT, Opt. apply Consumes_Alt_l. cbn [Cat fold_right].
      eapply Consumes_Seq; [apply Consumes_Lit|].
      eapply Consumes_Seq;
        [apply Consumes_Group, Consumes_Plus; [assumption..|reflexivity]|].
      apply Consumes_Seq_Eps, Consumes_Lit. }
  eapply Consumes_then; [apply Consumes_Lit|].
  eapply Consumes_then;
    [apply Consumes_Group, Consumes_Plus; [assumption..|reflexivity]|].
  eapply Consumes_then; [apply Consumes_Lit|].
  eapply Consumes_then.
  { apply Consumes_Plus; [reflexivity..|]. simpl. now rewrite Hd. }
  eapply Consumes_then.
  { apply Consumes_Group. unfold DATE. cbn [Cat fold_right].
    eapply Consumes_Seq; [apply Consumes_Count; assumption|].
    eapply Consumes_Seq; [apply Consumes_Lit|].
    eapply Consumes_Seq; [apply Consumes_Count; assumption|].
    eapply Consumes_Seq; [apply Consumes_Lit|].
    apply Consumes_Seq_Eps, Consumes_Count; assumption. }
  eapply Consumes_then; [apply Consumes_Plus; reflexivity|].
  eapply Consumes_then; [apply Consumes_Lit|].
  eapply Consumes_then.
  { apply Consumes_Group. unfold VER. cbn [Cat fold_right].
    eapply Consumes_Seq; [apply Consumes_Plus; [assumption..|reflexivity]|].
    eapply Consumes_Seq; [apply Consumes_Lit|].
    eapply Consumes_Seq; [apply Consumes_Plus; [assumption..|reflexivity]|].
    eapply Consumes_Seq; [apply Consumes_Lit|].
    apply Consumes_Seq_Eps, Consumes_Plus; [assumption..|reflexivity]. }
  eapply Consumes_then; [apply Consumes_Plus; reflexivity|].
  eapply Consumes_then; [apply Consumes_Chr; reflexivity|].
  exact Htail.
Qed.

(** The whitespace and a note that starts with another character. *)
Lemma note_tail (n : char) (N' : str) (c0 : caps) :
  isspace n = false -> dot n = true /\ forallb dot N' = true ->
  rmatch (Seq (Plus true isspace) (Seq (Group "narr" (Plus true dot)) Eps))
    ([32] ++ n :: N') c0 accept
  = Some (("narr"%string, n :: N') :: c0).
Proof.
  intros Hn [Hn' HN].
  assert (Consumes
            (Seq (Plus true isspace) (Seq (Group "narr" (Plus true dot)) Eps))
            ([32] ++ n :: N') [] c0 (("narr"%string, n :: N') :: c0)) as HC.
  { eapply Consumes_Seq.
    - apply Consumes_Plus; [reflexivity..|]. simpl. now rewrite Hn.
    - apply Consumes_Seq_Eps, Consumes_Group, Consumes_Plus;
        [assumption..|reflexivity]. }
  rewrite <- (app_nil_r ([32] ++ n :: N')). now apply HC.
Qed.

(** The whitespace and a blank note: the whitespace gives its last blank
    back to the note. *)
Lemma blank_tail (c0 : caps) :
  rmatch (Seq (Plus true isspace) (Seq (Group "narr" (Plus true dot)) Eps))
    [32; 32] c0 accept
  = Some (("narr"%string, [32]) :: c0).
Proof. reflexivity. Qed.

Lemma TAG_RE_accepts (lay : str) (cl : caps) (t : char) (T' D1 D2 D3 : str)
    (a : char) (A : str) (b : char) (B : str) (c : char) (C : str)
    (n : char) (N' : str) :
  (lay = [] /\ cl = [])
  \/ (exists l L', lay = py "[" ++ (l :: L') ++ py "]"
                   /\ cl = [("layer"%string, l :: L')]
                   /\ is_alpha l = true /\ forallb is_alpha L' = true) ->
  tag_char t = true /\ forallb tag_char T' = true ->
  length D1 = 4%nat /\ forallb isdigit D1 = true ->
  length D2 = 2%nat /\ forallb isdigit D2 = true ->
  length D3 = 2%nat /\ forallb isdigit D3 = true ->
  isdigit a = true /\ forallb isdigit A = true ->
  isdigit b = true /\ forallb isdigit B = true ->
  isdigit c = true /\ forallb isdigit C = true ->
  isspace n = false -> dot n = true /\ forallb dot N' = true ->
  search TAG_RE
    (py "\Tag" ++ lay ++ py "{" ++ (t :: T') ++ py "}" ++ [32]
     ++ (D1 ++ py "-" ++ D2 ++ py "-" ++ D3) ++ [32] ++ py "v"
     ++ ((a :: A) ++ py "." ++ (b :: B) ++ py "." ++ c :: C)
     ++ [32] ++ [emdash] ++ [32] ++ n :: N')
  = Some (("narr"%string, n :: N')
          :: ("ver"%string, (a :: A) ++ py "." ++ (b :: B) ++ py "." ++ c :: C)
          :: ("date"%string, D1 ++ py "-" ++ D2 ++ py "-" ++ D3)
          :: ("tag"%string, t :: T') :: cl).
Proof.
  intros Hlay HT HD1 HD2 HD3 Ha Hb Hc Hn HN.
  apply search_of_match.
  apply (TAG_RE_head lay cl t T' D1 D2 D3 a A b B c C ([32] ++ n :: N'));
    try assumption.
  now apply note_tail.
Qed.

(** Rewriting with a fact about [search TAG_RE] up to computation of the
    line. *)
Ltac rewrite_search Hs :=
  match type of Hs with
  | ?lhs = _ =>
      match goal with
      | |- context [search TAG_RE ?l] =>
          change (search TAG_RE l) with lhs; rewrite Hs
      end
  end.

Lemma entry_of_caps (path ctx N V D T : str) (cl : caps) :
  entry_of path ctx
    (("narr"%string, N) :: ("ver"%string, V) :: ("date"%string, D)
     :: ("tag"%string, T) :: cl)
  = mkEntry path ctx (upper (py_or (group cl "layer") [])) (upper T) D V
      (strip N) None.
Proof. reflexivity. Qed.

(** C8: for every line that matches the annotation grammar, writing the
    five fields of the record (layer, tag, date, ver, note) back as an
    annotation line and matching that line again yields the same
    record. *)
Theorem tag_round_trip (path : str) (sec : option str) (st : tracker)
    (line : str) (e : Entry) :
  tag_entry path sec st line = [e] ->
  tag_entry path sec st (format_line e) = [e].
Proof.
  unfold tag_entry at 1. intros Htag.
  destruct (search TAG_RE line) as [mt|] eqn:E; [|discriminate].
  injection Htag as <-.
  apply TAG_RE_shape in E
    as (cl & t & T' & D1 & D2 & D3 & a & A & b & B & c & C & n & N' & ->
        & Hcl & [Ht HT] & HD1 & HD2 & HD3 & Ha & Hb & Hc & Hn).
  set (ctx := py_or (ledger_title st) (py_or sec UNKNOWN_SECTION)).
  rewrite entry_of_caps.
  assert (tag_char (upper_char t) = true
          /\ forallb tag_char (upper T') = true) as HTu.
  { split; [now apply upper_tag_char|].
    apply forallb_upper; [apply upper_tag_char|assumption]. }
  pose proof (upper_idem (t :: T')) as HTi.
  (* the layer, as it is written and as it is captured again *)
  assert (exists lay cl',
            ((lay = [] /\ cl' = [])
             \/ (exists l L', lay = py "[" ++ (l :: L') ++ py "]"
                              /\ cl' = [("layer"%string, l :: L')]
                              /\ is_alpha l = true
                              /\ forallb is_alpha L' = true))
            /\ match upper (py_or (group cl "layer") []) with
               | [] => []
               | _ => py "[" ++ upper (py_or (group cl "layer") []) ++ py "]"
               end = lay
            /\ upper (py_or (group cl' "layer") [])
               = upper (py_or (group cl "layer") []))
    as (lay & cl' & Hlay & Elay & Ecl).
  { destruct Hcl as [->|(l & L' & -> & Hl & HL)].
    - exists [], []. split; [now left|]. split; reflexivity.
    - exists (py "[" ++ (upper_char l :: upper L') ++ py "]"),
        [("layer"%string, upper_char l :: upper L')].
      split; [|split; [reflexivity|]].
      + right. exists (upper_char l), (upper L').
        repeat split; [now apply upper_alpha|].
        apply forallb_upper; [apply upper_alpha|assumption].
      + change (upper (upper (l :: L')) = upper (l :: L')).
        apply upper_idem. }
  (* the note, as it is written and as it is captured again *)
  assert (exists s Nc,
            (forall c0,
               rmatch (Seq (Plus true isspace)
                         (Seq (Group "narr" (Plus true dot)) Eps)) s c0 accept
               = Some (("narr"%string, Nc) :: c0))
            /\ strip Nc = strip (n :: N')
            /\ SEP ++ match strip (n :: N') with
                      | [] => py " "
                      | _ => strip (n :: N')
                      end = [32] ++ [emdash] ++ s)
    as (s & Nc & Htail & ENc & Es).
  { destruct (strip (n :: N')) as [|n0 N0] eqn:En.
    - exists [32; 32], [32]. split; [apply blank_tail|]. split; reflexivity.
    - exists ([32] ++ n0 :: N0), (n0 :: N0).
      split; [|split; [rewrite <- En; apply strip_idem|reflexivity]].
      intros c0. apply note_tail.
      + pose proof (strip_stops (n :: N')) as Hs. rewrite En in Hs.
        simpl in Hs. now apply negb_true_iff in Hs.
      + apply andb_prop. change (forallb dot (n0 :: N0) = true).
        rewrite <- En. apply forallb_strip. simpl.
        destruct Hn as [-> ->]. reflexivity. }
  pose proof (search_of_match _ _ _
                (TAG_RE_head lay cl' (upper_char t) (upper T') D1 D2 D3
                   a A b B c C s _ Hlay HTu HD1 HD2 HD3 Ha Hb Hc
                   (Htail _))) as Hs.
  unfold tag_entry, format_line. fold ctx.
  cbn [layer tag date ver note]. rewrite Elay, Es.
  rewrite_search Hs.
  rewrite entry_of_caps, Ecl, ENc.
  change (upper (upper_char t :: upper T')) with (upper (upper (t :: T'))).
  rewrite HTi. reflexivity.
Qed.

Lemma tag_round_trip_witness :
  tag_entry (py "a.tex") None tracker0 seed_line = [seed_entry]
  /\ format_line seed_entry = seed_line
  /\ tag_entry (py "a.tex") None tracker0 (format_line seed_entry)
     = [seed_entry]
  /\ tag_entry (py "a.tex") None tracker0 blank_note_line = [blank_note_entry]
  /\ tag_entry (py "a.tex") None tracker0 (format_line blank_note_entry)
     = [blank_note_entry].
Proof.
  split; [reflexivity|]. split; [reflexivity|].
  split; [|split; [reflexivity|]].
  - apply (tag_round_trip (py "a.tex") None tracker0 seed_line). reflexivity.
  - apply (tag_round_trip (py "a.tex") None tracker0 blank_note_line).
    reflexivity.
Defined.

(** * Further properties of the code *)

(** ** Where a pattern can start *)

Lemma contains_app (sub pre s : str) :
  startswith sub s = true -> contains sub (pre ++ s) = true.
Proof.
  intros H. induction pre as [|x pre IH]; simpl.
  - destruct s; simpl; rewrite H; reflexivity.
  - rewrite IH. apply orb_true_r.
Qed.

Lemma startswith_app (p s : str) : startswith p (p ++ s) = true.
Proof.
  induction p as [|a p IH]; simpl; [reflexivity|].
  now rewrite N.eqb_refl, IH.
Qed.

(** X1: a line that does not contain the marker [\Tag] does not match the
    annotation pattern, and the scraper records nothing for it. *)
Theorem no_marker_no_record (path : str) (sec : option str) (st : tracker)
    (line : str) :
  contains (py "\Tag") line = false ->
  search TAG_RE line = None /\ tag_entry path sec st line = [].
Proof.
  intros Hno.
  assert (search TAG_RE line = None) as Hs.
  { destruct (search TAG_RE line) as [mt|] eqn:E; [|reflexivity].
    apply search_sound in E as (pre & w & post & -> & M).
    unfold TAG_RE in M. cbn [Cat fold_right] in M.
    apply Matches_Seq_inv in M as (w1 & w2 & c1 & -> & M1 & _).
    apply Matches_Lit_inv in M1 as [-> _].
    rewrite <- app_assoc, contains_app in Hno; [discriminate|].
    apply startswith_app. }
  split; [exact Hs|]. unfold tag_entry. now rewrite Hs.
Qed.

Lemma no_marker_no_record_witness :
  contains (py "\Tag") origins_header = false
  /\ tag_entry (py "a.tex") None tracker0 origins_header = [].
Proof.
  split; [reflexivity|].
  apply (no_marker_no_record (py "a.tex") None tracker0 origins_header).
  reflexivity.
Defined.

Lemma rmatch_Lit_mismatch (a : char) (l : str) (r : regex) (x : char)
    (s : str) (c : caps) (k : K) :
  a <> x -> rmatch (Seq (Lit (a :: l)) r) (x :: s) c k = None.
Proof.
  intros Hne. change (Lit (a :: l)) with (Seq (Chr (N.eqb a)) (Lit l)).
  cbn [rmatch]. apply N.eqb_neq in Hne. now rewrite Hne.
Qed.

Lemma rmatch_Lit_first (a : char) (l : str) (x : char) (s : str) (c : caps)
    (k : K) :
  a <> x -> rmatch (Lit (a :: l)) (x :: s) c k = None.
Proof.
  intros Hne. change (Lit (a :: l)) with (Seq (Chr (N.eqb a)) (Lit l)).
  cbn [rmatch]. apply N.eqb_neq in Hne. now rewrite Hne.
Qed.

Lemma search_skip (r : regex) (pre line : str) :
  (forall x s, x <> 92 -> match_ r (x :: s) = None) ->
  Forall (fun c => c <> 92) pre ->
  search r (pre ++ line) = search r line.
Proof.
  intros Hr Hpre. induction Hpre as [|x pre Hx _ IH]; [reflexivity|].
  simpl. now rewrite (Hr x (pre ++ line) Hx).
Qed.

Lemma backslash_first (r : regex) :
  (exists l r', r = Seq (Lit (92 :: l)) r') ->
  forall x s, x <> 92 -> match_ r (x :: s) = None.
Proof.
  intros (l & r' & ->) x s Hx. unfold match_.
  apply rmatch_Lit_mismatch. congruence.
Qed.

(** X2: text without a backslash in front of the markup of a line
    (indentation, a comment sign) changes nothing: the line moves the
    tracker and records the same entry as without it. *)
Theorem scrape_line_skips_prefix (path : str) (sec : option str)
    (st : tracker) (pre line : str) :
  Forall (fun c => c <> 92) pre ->
  scrape_line path sec st (pre ++ line) = scrape_line path sec st line.
Proof.
  intros Hpre.
  assert (search TAG_RE (pre ++ line) = search TAG_RE line) as Ht.
  { apply search_skip; [|assumption]. apply backslash_first.
    do 2 eexists. reflexivity. }
  assert (search HDR_RE (pre ++ line) = search HDR_RE line) as Hh.
  { apply search_skip; [|assumption]. apply backslash_first.
    do 2 eexists. reflexivity. }
  assert (search END_RE (pre ++ line) = search END_RE line) as He.
  { apply search_skip; [|assumption]. apply backslash_first.
    do 2 eexists. reflexivity. }
  assert (search FTR_RE (pre ++ line) = search FTR_RE line) as Hf.
  { apply search_skip; [|assumption]. intros x s Hx.
    unfold match_, FTR_RE.
    change (py "\begin{SectionFooterLedger}")
      with (92 :: py "begin{SectionFooterLedger}").
    apply rmatch_Lit_first. congruence. }
  unfold scrape_line, tag_entry. now rewrite Ht, Hh, He, Hf.
Qed.

Lemma scrape_line_skips_prefix_witness :
  Forall (fun c => c <> 92) (py "  % ")
  /\ scrape_line (py "a.tex") None tracker0 (py "  % " ++ seed_line)
     = (tracker0, [seed_entry]).
Proof.
  assert (Forall (fun c => c <> 92) (py "  % ")) as H
    by (repeat constructor; discriminate).
  split; [exact H|].
  rewrite (scrape_line_skips_prefix (py "a.tex") None tracker0 (py "  % ")
             seed_line H).
  reflexivity.
Defined.

(** ** The entries of a document *)

Lemma tag_entry_In (path : str) (sec : option str) (st : tracker)
    (line : str) (e : Entry) :
  In e (tag_entry path sec st line) -> tag_entry path sec st line = [e].
Proof.
  unfold tag_entry. destruct (search TAG_RE line); simpl.
  - intros [<-|[]]. reflexivity.
  - intros [].
Qed.

Lemma scrape_line_entries (path : str) (sec : option str) (st : tracker)
    (line : str) (e : Entry) :
  In e (snd (scrape_line path sec st line)) ->
  tag_entry path sec st line = [e].
Proof.
  unfold scrape_line.
  destruct (negb (in_ledger st)), (search HDR_RE line), (search FTR_RE line),
    (search END_RE line); simpl; try (intros []); apply tag_entry_In.
Qed.

Lemma scrape_lines_In (path : str) (sec : option str) (lines : list str)
    (st : tracker) (e : Entry) :
  In e (scrape_lines path sec st lines) ->
  exists pre line post,
    lines = pre ++ line :: post
    /\ tag_entry path sec (track path sec st pre) line = [e].
Proof.
  revert st. induction lines as [|l lines IH]; intros st; simpl; [intros []|].
  intros Hin. apply in_app_or in Hin as [Hin|Hin].
  - exists [], l, lines. split; [reflexivity|].
    now apply scrape_line_entries.
  - apply IH in Hin as (pre & line & post & -> & Ht).
    exists (l :: pre), line, post. split; [reflexivity|exact Ht].
Qed.

Lemma py_or_nonempty (a : option str) (b : str) : b <> [] -> py_or a b <> [].
Proof. destruct a as [[|c s]|]; simpl; auto; discriminate. Qed.

Lemma upper_char_not_lower (c : char) : is_lower (upper_char c) = false.
Proof.
  unfold upper_char, is_lower.
  destruct ((97 <=? c) && (c <=? 122)) eqn:E; [|exact E].
  b2p. lia.
Qed.

Lemma upper_no_lower (s : str) :
  forallb (fun c => negb (is_lower c)) (upper s) = true.
Proof.
  induction s as [|x s IH]; simpl; [reflexivity|].
  now rewrite upper_char_not_lower, IH.
Qed.

Lemma upper_char_alpha (c : char) :
  is_alpha c = true -> is_upper (upper_char c) = true.
Proof.
  unfold upper_char, is_alpha, is_upper, is_lower.
  destruct ((97 <=? c) && (c <=? 122)) eqn:E; intros H; b2p; lia.
Qed.

Lemma upper_alpha_upper (s : str) :
  forallb is_alpha s = true -> forallb is_upper (upper s) = true.
Proof.
  induction s as [|x s IH]; simpl; [reflexivity|].
  intros H. apply andb_prop in H as [Hx Hs].
  now rewrite (upper_char_alpha x Hx), IH.
Qed.

Lemma date_shape_parts (D1 D2 D3 : str) :
  length D1 = 4%nat /\ forallb isdigit D1 = true ->
  length D2 = 2%nat /\ forallb isdigit D2 = true ->
  length D3 = 2%nat /\ forallb isdigit D3 = true ->
  date_shape (D1 ++ py "-" ++ D2 ++ py "-" ++ D3) = true.
Proof.
  unfold date_shape. remember isdigit as dg eqn:Hdg. clear Hdg.
  intros [L1 H1] [L2 H2] [L3 H3].
  destruct D1 as [|y1 [|y2 [|y3 [|y4 [|]]]]]; try discriminate.
  destruct D2 as [|m1 [|m2 [|]]]; try discriminate.
  destruct D3 as [|d1 [|d2 [|]]]; try discriminate.
  simpl in *.
  repeat match goal with
         | H : _ && _ = true |- _ => apply andb_prop in H as [? ?]
         end.
  repeat match goal with H : dg _ = true |- _ => rewrite H; clear H end.
  reflexivity.
Qed.

(** The fields of an entry made from a line. *)
Lemma tag_entry_fields (path : str) (sec : option str) (st : tracker)
    (line : str) (e : Entry) :
  tag_entry path sec st line = [e] ->
  file e = path /\ family e = None /\ section e <> []
  /\ (tag e <> [] /\ forallb tag_char (tag e) = true
      /\ forallb (fun c => negb (is_lower c)) (tag e) = true)
  /\ forallb is_upper (layer e) = true
  /\ date_shape (date e) = true
  /\ (exists a b c,
        ver e = a ++ py "." ++ b ++ py "." ++ c
        /\ digits a /\ digits b /\ digits c)
  /\ strip (note e) = note e.
Proof.
  unfold tag_entry. intros Htag.
  destruct (search TAG_RE line) as [mt|] eqn:E; [|discriminate].
  injection Htag as <-.
  apply TAG_RE_shape in E
    as (cl & t & T' & D1 & D2 & D3 & a & A & b & B & c & C & n & N' & ->
        & Hcl & [Ht HT] & HD1 & HD2 & HD3 & [Ha HA] & [Hb HB] & [Hc HC] & Hn).
  rewrite entry_of_caps. cbn [file family section tag layer date ver note].
  split; [reflexivity|]. split; [reflexivity|].
  split; [apply py_or_nonempty, py_or_nonempty; discriminate|].
  split.
  { split; [discriminate|]. split; [|apply upper_no_lower].
    apply forallb_upper; [apply upper_tag_char|].
    cbn [forallb]. now rewrite Ht, HT. }
  split.
  { destruct Hcl as [->|(l & L' & -> & Hl & HL)]; [reflexivity|].
    change (upper (py_or (group [("layer"%string, l :: L')] "layer") []))
      with (upper (l :: L')).
    apply upper_alpha_upper. cbn [forallb]. now rewrite Hl, HL. }
  split; [now apply date_shape_parts|].
  split; [|apply strip_idem].
  exists (a :: A), (b :: B), (c :: C). unfold digits. cbn [forallb].
  rewrite Ha, HA, Hb, HB, Hc, HC.
  repeat split; discriminate.
Qed.

(** X3: every entry scraped from a document carries the path of the
    document, no family yet, a non-empty section, a non-empty tag made of
    the characters of the grammar without lower-case letters, a layer of
    upper-case letters (possibly empty), a date of the form YYYY-MM-DD, a
    version of three dotted runs of digits, and a note without leading or
    trailing whitespace. *)
Theorem scraped_entry_fields (path text : str) (e : Entry) :
  In e (scrape_text path text) ->
  file e = path /\ family e = None /\ section e <> []
  /\ (tag e <> [] /\ forallb tag_char (tag e) = true
      /\ forallb (fun c => negb (is_lower c)) (tag e) = true)
  /\ forallb is_upper (layer e) = true
  /\ date_shape (date e) = true
  /\ (exists a b c,
        ver e = a ++ py "." ++ b ++ py "." ++ c
        /\ digits a /\ digits b /\ digits c)
  /\ strip (note e) = note e.
Proof.
  unfold scrape_text. intros Hin.
  apply scrape_lines_In in Hin as (pre & line & post & _ & Ht).
  exact (tag_entry_fields _ _ _ _ _ Ht).
Qed.

Lemma scraped_entry_fields_witness :
  In seed_entry (scrape_text (py "a.tex") (py "  % " ++ seed_line))
  /\ date_shape (date seed_entry) = true
  /\ strip (note seed_entry) = note seed_entry.
Proof.
  assert (In seed_entry (scrape_text (py "a.tex") (py "  % " ++ seed_line)))
    as Hin by (left; reflexivity).
  split; [exact Hin|].
  destruct (scraped_entry_fields (py "a.tex") (py "  % " ++ seed_line)
              seed_entry Hin) as (_ & _ & _ & _ & _ & Hd & _ & Hn).
  split; [exact Hd|exact Hn].
Defined.

Lemma scrape_line_length (path : str) (sec : option str) (st : tracker)
    (line : str) :
  (length (snd (scrape_line path sec st line)) <= 1)%nat.
Proof.
  unfold scrape_line, tag_entry.
  destruct (negb (in_ledger st)), (search HDR_RE line), (search FTR_RE line),
    (search END_RE line), (search TAG_RE line); simpl; lia.
Qed.

(** X4: a line yields at most one entry, so a document never yields more
    entries than it has lines. *)
Theorem one_entry_per_line (path text : str) :
  (length (scrape_text path text) <= length (splitlines text))%nat.
Proof.
  unfold scrape_text. generalize tracker0.
  induction (splitlines text) as [|l lines IH]; intros st; simpl; [lia|].
  rewrite length_app.
  pose proof (scrape_line_length path (prescan text) st l).
  specialize (IH (fst (scrape_line path (prescan text) st l))). lia.
Qed.

Lemma format_line_app (e : Entry) (rest : str) :
  note e <> [] ->
  format_line e ++ rest = format_line (with_note e (note e ++ rest)).
Proof.
  intros Hne. unfold format_line. cbn [layer tag date ver note with_note].
  destruct (note e) as [|x nn]; [congruence|].
  rewrite <- !app_assoc. reflexivity.
Qed.

(** X5: whatever follows an annotation on its line belongs to the note: for
    a line that matches with a non-empty trimmed note, the line written
    from the fields and continued by any text (a second annotation, say)
    yields one entry, the same but for the note, which is the trimmed rest
    of the line. *)
Theorem trailing_text_joins_note (path : str) (sec : option str)
    (st : tracker) (line : str) (e : Entry) (rest : str) :
  tag_entry path sec st line = [e] ->
  note e <> [] ->
  forallb dot rest = true ->
  tag_entry path sec st (format_line e ++ rest)
  = [with_note e (strip (note e ++ rest))].
Proof.
  unfold tag_entry at 1. intros Htag Hnote Hrest.
  destruct (search TAG_RE line) as [mt|] eqn:E; [|discriminate].
  injection Htag as <-.
  apply TAG_RE_shape in E
    as (cl & t & T' & D1 & D2 & D3 & a & A & b & B & c & C & n & N' & ->
        & Hcl & [Ht HT] & HD1 & HD2 & HD3 & Ha & Hb & Hc & Hn).
  set (ctx := py_or (ledger_title st) (py_or sec UNKNOWN_SECTION)).
  rewrite entry_of_caps in *. cbn [note] in Hnote.
  destruct (strip (n :: N')) as [|n0 N0] eqn:En; [congruence|].
  assert (isspace n0 = false) as Hn0.
  { pose proof (strip_stops (n :: N')) as Hs. rewrite En in Hs.
    simpl in Hs. now apply negb_true_iff in Hs. }
  assert (dot n0 = true /\ forallb dot (N0 ++ rest) = true) as HN0.
  { assert (forallb dot (n0 :: N0) = true) as H.
    { rewrite <- En. apply forallb_strip. simpl.
      destruct Hn as [-> ->]. reflexivity. }
    simpl in H. apply andb_prop in H as [H1 H2].
    split; [exact H1|]. rewrite forallb_app, H2. exact Hrest. }
  assert (tag_char (upper_char t) = true
          /\ forallb tag_char (upper T') = true) as HTu.
  { split; [now apply upper_tag_char|].
    apply forallb_upper; [apply upper_tag_char|assumption]. }
  pose proof (upper_idem (t :: T')) as HTi.
  unfold tag_entry. fold ctx.
  rewrite format_line_app by (cbn [note]; discriminate).
  cbn [with_note file section layer tag date ver note family].
  destruct Hcl as [->|(l & L' & -> & Hl & HL)].
  - pose proof (TAG_RE_accepts [] [] (upper_char t) (upper T') D1 D2 D3
                  a A b B c C n0 (N0 ++ rest)
                  (or_introl (conj eq_refl eq_refl))
                  HTu HD1 HD2 HD3 Ha Hb Hc Hn0 HN0) as Hs.
    rewrite_search Hs.
    rewrite entry_of_caps.
    change (upper (upper_char t :: upper T')) with (upper (upper (t :: T'))).
    rewrite HTi. reflexivity.
  - pose proof (upper_idem (l :: L')) as HLi.
    assert ((py "[" ++ (upper_char l :: upper L') ++ py "]" = []
             /\ [("layer"%string, upper_char l :: upper L')] = [])
            \/ (exists l0 L0,
                  py "[" ++ (upper_char l :: upper L') ++ py "]"
                  = py "[" ++ (l0 :: L0) ++ py "]"
                  /\ [("layer"%string, upper_char l :: upper L')]
                     = [("layer"%string, l0 :: L0)]
                  /\ is_alpha l0 = true /\ forallb is_alpha L0 = true))
      as Hlay.
    { right. exists (upper_char l), (upper L').
      repeat split; [now apply upper_alpha|].
      apply forallb_upper; [apply upper_alpha|assumption]. }
    pose proof (TAG_RE_accepts _ _ (upper_char t) (upper T') D1 D2 D3
                  a A b B c C n0 (N0 ++ rest) Hlay
                  HTu HD1 HD2 HD3 Ha Hb Hc Hn0 HN0) as Hs.
    rewrite_search Hs.
    rewrite entry_of_caps.
    change (upper (upper_char t :: upper T')) with (upper (upper (t :: T'))).
    change (upper (py_or (group [("layer"%string, upper_char l :: upper L')]
                            "layer") []))
      with (upper (upper (l :: L'))).
    rewrite HTi, HLi. reflexivity.
Qed.

Lemma trailing_text_joins_note_witness :
  tag_entry (py "a.tex") None tracker0
    (format_line seed_entry ++ py " " ++ blank_note_line ++ py "x")
  = [with_note seed_entry
       (py "Initial seed. " ++ blank_note_line ++ py "x")].
Proof.
  rewrite (trailing_text_joins_note (py "a.tex") None tracker0 seed_line
             seed_entry (py " " ++ blank_note_line ++ py "x"));
    [reflexivity|reflexivity|discriminate|reflexivity].
Defined.

(** ** Where a section attribution comes from *)

Lemma py_or_same (x : str) : py_or (Some x) x = x.
Proof. destruct x; reflexivity. Qed.

Lemma scrape_line_title (path : str) (sec : option str) (st : tracker)
    (l : str) :
  let st' := fst (scrape_line path sec st l) in
  ledger_title st' = ledger_title st
  \/ ledger_title st' = None
  \/ ledger_title st' = Some (py_or sec UNKNOWN_SECTION)
  \/ exists mh t,
       search HDR_RE l = Some mh /\ group mh "title" = Some t
       /\ t <> [] /\ ledger_title st' = Some t.
Proof.
  unfold scrape_line.
  destruct (negb (in_ledger st)).
  - destruct (search HDR_RE l) as [mh|] eqn:Eh.
    + destruct (HDR_title _ _ Eh) as (t & Ht & Hne).
      simpl. right. right. right. exists mh, t. auto.
    + destruct (search FTR_RE l); simpl; auto.
  - destruct (search END_RE l); simpl; auto.
Qed.

Lemma track_title (path : str) (sec : option str) (all pre : list str)
    (st : tracker) :
  (forall l, In l pre -> In l all) ->
  ledger_title st = None ->
  let st' := track path sec st pre in
  ledger_title st' = None
  \/ ledger_title st' = Some (py_or sec UNKNOWN_SECTION)
  \/ exists line mh t,
       In line all /\ search HDR_RE line = Some mh
       /\ group mh "title" = Some t /\ t <> [] /\ ledger_title st' = Some t.
Proof.
  intros Hall H0. cbv zeta.
  assert (ledger_title st = None
          \/ ledger_title st = Some (py_or sec UNKNOWN_SECTION)
          \/ exists line mh t,
               In line all /\ search HDR_RE line = Some mh
               /\ group mh "title" = Some t /\ t <> []
               /\ ledger_title st = Some t) as Hst by auto.
  clear H0. revert st Hst.
  induction pre as [|l pre IH]; intros st Hst; simpl; [exact Hst|].
  apply IH; [intros; apply Hall; now right|].
  destruct (scrape_line_title path sec st l)
    as [H|[H|[H|(mh & t & Hm & Hg & Hne & H)]]]; rewrite H; auto.
  right. right. exists l, mh, t. repeat split; auto. apply Hall. now left.
Qed.

(** X6: the section of a scraped entry is either the title of the first
    section declaration of the document (the sentinel when there is none)
    or the title captured from a ledger-header line of the document; a
    footer ledger never brings a title of its own. *)
Theorem section_provenance (path text : str) (e : Entry) :
  In e (scrape_text path text) ->
  section e = py_or (prescan text) UNKNOWN_SECTION
  \/ exists line mh,
       In line (splitlines text) /\ search HDR_RE line = Some mh
       /\ group mh "title" = Some (section e).
Proof.
  unfold scrape_text. intros Hin.
  apply scrape_lines_In in Hin as (pre & line & post & Hlines & Ht).
  assert (section e
          = py_or (ledger_title (track path (prescan text) tracker0 pre))
              (py_or (prescan text) UNKNOWN_SECTION)) as Hsec.
  { unfold tag_entry in Ht. destruct (search TAG_RE line); [|discriminate].
    injection Ht as <-. reflexivity. }
  destruct (track_title path (prescan text) (splitlines text) pre tracker0)
    as [H|[H|(l & mh & t & Hl & Hm & Hg & Hne & H)]].
  - intros l Hl. rewrite Hlines. apply in_or_app. now left.
  - reflexivity.
  - left. now rewrite Hsec, H.
  - left. rewrite Hsec, H. apply py_or_same.
  - right. exists l, mh. rewrite Hsec, H.
    destruct t; [congruence|]. auto.
Qed.

Lemma section_provenance_witness :
  In seed_entry (scrape_text (py "a.tex") seed_line)
  /\ (section seed_entry = py_or (prescan seed_line) UNKNOWN_SECTION
      \/ exists line mh,
           In line (splitlines seed_line) /\ search HDR_RE line = Some mh
           /\ group mh "title" = Some (section seed_entry)).
Proof.
  assert (In seed_entry (scrape_text (py "a.tex") seed_line)) as Hin
    by (left; reflexivity).
  split; [exact Hin|].
  exact (section_provenance (py "a.tex") seed_line seed_entry Hin).
Defined.

(** ** Files that cannot be read, registries without headings *)

(** X7: a file that cannot be read yields no entry and does not disturb
    the other files: the entries of a run are those of its readable
    files. *)
Theorem unreadable_files_skipped (read_text : str -> option str)
    (files : list str) :
  scrape_files read_text files
  = scrape_files read_text
      (List.filter (fun f => bool_decide (is_Some (read_text f))) files).
Proof.
  unfold scrape_files. induction files as [|f files IH]; simpl; [reflexivity|].
  unfold scrape_file at 1. destruct (read_text f) as [text|] eqn:E; simpl.
  - unfold scrape_file at 2. rewrite E. now rewrite IH.
  - exact IH.
Qed.

Lemma registry_line_no_family (m : gmap str str) (l : str) :
  family_heading l = false -> registry_line (m, None) l = (m, None).
Proof.
  unfold family_heading, registry_line. intros H.
  destruct (startswith (py "## ") (strip l)).
  - rewrite andb_true_l in H. apply bool_decide_eq_false in H.
    destruct (List.find _ family_map) eqn:E; [|reflexivity].
    exfalso. apply H. eauto.
  - cbn [snd truthy].
    destruct (match_ TBL_RE (strip l)); destruct (search DESC_RE (strip l));
      reflexivity.
Qed.

(** X8: the lines of TAGS.md that precede the first heading naming a
    family record nothing, rows and bracketed tags included: the
    external mapping is the one read from that heading on. *)
Theorem registry_needs_heading (text : str) (pre rest : list str) :
  splitlines text = pre ++ rest ->
  Forall (fun l => family_heading l = false) pre ->
  registry_of_text text = fst (fold_left registry_line rest (∅, None)).
Proof.
  intros Hl Hpre. unfold registry_of_text. rewrite Hl, fold_left_app.
  clear Hl. f_equal. f_equal.
  induction Hpre as [|l pre Hh _ IH]; [reflexivity|].
  cbn [fold_left]. now rewrite registry_line_no_family.
Qed.

Lemma registry_needs_heading_witness :
  Forall (fun l => family_heading l = false) [py "| SEED | x |"]
  /\ registry_of_text (py "| SEED | x |" ++ [newline] ++ tags_md)
     = registry_of_text tags_md.
Proof.
  assert (Forall (fun l => family_heading l = false) [py "| SEED | x |"])
    as H by (repeat constructor).
  split; [exact H|].
  apply (registry_needs_heading (py "| SEED | x |" ++ [newline] ++ tags_md)
           [py "| SEED | x |"] (splitlines tags_md)); [|exact H].
  vm_compute. reflexivity.
Defined.

(** X9: when no registry file is named, or it cannot be read, or none of
    its lines is a heading naming a family, the resolved registry is the
    built-in registry. *)
Theorem registry_falls_back (read_text : str -> option str)
    (tags_reg : option str) :
  (forall path text,
     truthy tags_reg = Some path -> read_text path = Some text ->
     Forall (fun l => family_heading l = false) (splitlines text)) ->
  get_registry read_text tags_reg = BUILTIN_REGISTRY.
Proof.
  intros H. unfold get_registry.
  destruct (truthy tags_reg) as [path|] eqn:E; [|reflexivity].
  unfold overlay, load_registry_from_md.
  destruct (read_text path) as [text|] eqn:Er.
  - rewrite (registry_needs_heading text (splitlines text) []);
      [|now rewrite app_nil_r|eauto].
    simpl. apply (left_id_L ∅ (∪)).
  - apply (left_id_L ∅ (∪)).
Qed.

Lemma registry_falls_back_witness :
  get_registry only_tags_md (Some (py "missing.md")) = BUILTIN_REGISTRY.
Proof.
  apply (registry_falls_back only_tags_md (Some (py "missing.md"))).
  intros path text [= <-]. discriminate.
Defined.

(** ** Classification *)

(** X10: an external registry can move a built-in tag to another family
    but cannot remove it: every tag of the built-in registry resolves to
    one of the five families, and a record with such a tag is never
    classified "Unknown". *)
Theorem builtin_tags_stay_classified (read_text : str -> option str)
    (tags_reg : option str) (t : str) :
  is_Some (BUILTIN_REGISTRY !! t) ->
  exists fam,
    get_registry read_text tags_reg !! t = Some fam
    /\ fam ∈ taxonomy /\ fam <> UNKNOWN
    /\ forall e,
         tag e = t ->
         family (enrich_one (get_registry read_text tags_reg) e) = Some fam.
Proof.
  intros [fb Hb].
  assert (exists fam, get_registry read_text tags_reg !! t = Some fam)
    as [fam Hfam].
  { rewrite get_registry_lookup.
    destruct (truthy tags_reg) as [path|]; [|eauto].
    destruct (load_registry_from_md read_text path !! t); eauto. }
  pose proof (get_registry_wf read_text tags_reg) as Hwf.
  pose proof (map_Forall_lookup_1 _ _ _ _ Hwf Hfam) as Hin. simpl in Hin.
  destruct (taxonomy_truthy fam Hin) as [Hor Hne].
  exists fam. repeat split; auto.
  intros e <-. unfold enrich_one. cbn [family]. now rewrite Hfam, Hor.
Qed.

Lemma builtin_tags_stay_classified_witness :
  exists fam,
    get_registry only_tags_md (Some (py "TAGS.md")) !! py "SEED" = Some fam
    /\ fam ∈ taxonomy /\ fam <> UNKNOWN
    /\ forall e,
         tag e = py "SEED" ->
         family (enrich_one (get_registry only_tags_md (Some (py "TAGS.md"))) e)
         = Some fam.
Proof.
  apply (builtin_tags_stay_classified only_tags_md (Some (py "TAGS.md"))
           (py "SEED")).
  exists STRUCTURAL. reflexivity.
Defined.

(** X11: enrichment only sets the family: the other fields, the number
    and the order of the records are kept, and enriching again replaces
    the family by that of the later registry. *)
Theorem enrich_last_wins (entries : list Entry) (r1 r2 : gmap str str) :
  enrich_with_family (enrich_with_family entries r1) r2
  = enrich_with_family entries r2
  /\ List.map
       (fun e => (file e, section e, layer e, tag e, date e, ver e, note e))
       (enrich_with_family entries r1)
     = List.map
         (fun e => (file e, section e, layer e, tag e, date e, ver e, note e))
         entries.
Proof.
  unfold enrich_with_family. rewrite !List.map_map. split; reflexivity.
Qed.

(** ** Grouping, again *)

Section GroupContents.

Context {Kt : Type} `{EqDecision Kt}.

Lemma group_add_concat (k : Kt) (e : Entry) (g : list (Kt * list Entry)) :
  Permutation (List.concat (List.map snd (group_add k e g)))
    (e :: List.concat (List.map snd g)).
Proof.
  induction g as [|[k0 items] g IH]; simpl; [reflexivity|].
  case_bool_decide; simpl.
  - rewrite <- app_assoc. simpl. symmetry. apply Permutation_middle.
  - rewrite IH. symmetry. apply Permutation_middle.
Qed.

Lemma group_add_order (k : Kt) (e : Entry) (g : list (Kt * list Entry)) :
  List.map fst (group_add k e g)
  = if bool_decide (k ∈ List.map fst g) then List.map fst g
    else List.map fst g ++ [k].
Proof.
  induction g as [|[k0 items] g IH].
  - cbn [group_add List.map]. case_bool_decide as Hin; [|reflexivity].
    now apply not_elem_of_nil in Hin.
  - cbn [group_add List.map fst].
    destruct (decide (k0 = k)) as [->|Hne].
    + rewrite (bool_decide_eq_true_2 (k = k)) by reflexivity.
      cbn [List.map fst].
      rewrite bool_decide_eq_true_2; [reflexivity|apply list_elem_of_here].
    + rewrite (bool_decide_eq_false_2 (k0 = k)) by assumption.
      cbn [List.map fst]. rewrite IH.
      destruct (decide (k ∈ List.map fst g)) as [Hin|Hnin].
      * rewrite (bool_decide_eq_true_2 (k ∈ List.map fst g)) by assumption.
        rewrite (bool_decide_eq_true_2 (k ∈ k0 :: List.map fst g))
          by (now apply list_elem_of_further).
        reflexivity.
      * rewrite (bool_decide_eq_false_2 (k ∈ List.map fst g)) by assumption.
        rewrite (bool_decide_eq_false_2 (k ∈ k0 :: List.map fst g));
          [reflexivity|].
        intros Hin. apply elem_of_cons in Hin as [->|Hin]; auto.
Qed.

Variable f : Entry -> Kt.

Lemma group_fold_concat (l : list Entry) (g : list (Kt * list Entry)) :
  Permutation
    (List.concat
       (List.map snd (fold_left (fun groups e => group_add (f e) e groups) l g)))
    (List.concat (List.map snd g) ++ l).
Proof.
  revert g. induction l as [|e l IH]; intros g; simpl.
  - now rewrite app_nil_r.
  - rewrite IH, group_add_concat. simpl. apply Permutation_middle.
Qed.

Lemma group_entries_concat (l : list Entry) :
  Permutation (List.concat (List.map snd (group_entries f l))) l.
Proof. unfold group_entries. now rewrite group_fold_concat. Qed.

Lemma group_entries_nonempty (l : list Entry) (k : Kt) (items : list Entry) :
  In (k, items) (group_entries f l) -> items <> [].
Proof.
  intros Hin.
  assert (In k (List.map fst (group_entries f l))) as Hk
    by (change k with (fst (k, items)); now apply in_map).
  apply group_entries_keys in Hk as (e & He & Hke).
  rewrite (group_entries_items f l k items Hin). intros Hnil.
  assert (In e (List.filter (fun e => bool_decide (f e = k)) l)) as H0
    by (apply filter_In; split; [assumption|now apply bool_decide_eq_true]).
  rewrite Hnil in H0. destruct H0.
Qed.

End GroupContents.

Lemma group_fold_order (by_ : str) (l : list Entry)
    (g : list (str * list Entry)) :
  List.map fst
    (fold_left (fun groups e => group_add (get_field e by_) e groups) l g)
  = fold_left (fun acc k => if bool_decide (k ∈ acc) then acc else acc ++ [k])
      (List.map (fun e => get_field e by_) l) (List.map fst g).
Proof.
  revert g. induction l as [|e l IH]; intros g; simpl; [reflexivity|].
  now rewrite IH, group_add_order.
Qed.

(** X12: the grouped projection splits the records by the value of the
    chosen field: the groups come in the order in which their values first
    occur, no value has two groups, no group is empty, a group holds
    exactly the records with its value in their original order, and
    together the groups hold every record once. *)
Theorem json_grouped_partition (entries : list Entry) (by_ : str) :
  let gs := json_grouped entries by_ in
  List.map fst gs = first_seen (List.map (fun e => get_field e by_) entries)
  /\ List.NoDup (List.map fst gs)
  /\ (forall k items,
        In (k, items) gs ->
        items <> []
        /\ items
           = List.filter (fun e => bool_decide (get_field e by_ = k)) entries)
  /\ Permutation (List.concat (List.map snd gs)) entries.
Proof.
  cbv zeta. unfold json_grouped. split; [|split; [|split]].
  - unfold group_entries, first_seen. apply group_fold_order.
  - apply group_entries_nodup.
  - intros k items Hin. split.
    + eapply group_entries_nonempty; eassumption.
    + now apply group_entries_items.
  - apply group_entries_concat.
Qed.

(** ** The narrative and the classification *)

Section MapEntries.

Variable f : Entry -> Entry.
Hypothesis f_key : forall e, key (f e) = key e.
Hypothesis f_section : forall e, section (f e) = section e.
Hypothesis f_item : forall e, render_item (f e) = render_item e.

Let F (g : (str * str) * list Entry) : (str * str) * list Entry :=
  (fst g, List.map f (snd g)).

Lemma sort_entries_map (l : list Entry) :
  sort_entries (List.map f l) = List.map f (sort_entries l).
Proof.
  unfold sort_entries, stable_sort.
  induction l as [|e l IH]; simpl; [reflexivity|]. rewrite IH.
  generalize (fold_right (insert_by (fun x e0 => key_gt (key x) (key e0))) [] l).
  intros s. induction s as [|x s IHs]; simpl; [reflexivity|].
  rewrite !f_key. destruct (key_gt (key x) (key e)); simpl; [|reflexivity].
  now rewrite IHs.
Qed.

Lemma group_add_map (k : str * str) (e : Entry)
    (g : list ((str * str) * list Entry)) :
  group_add k (f e) (List.map F g) = List.map F (group_add k e g).
Proof.
  unfold F. induction g as [|[k0 items] g IH]; simpl; [reflexivity|].
  destruct (bool_decide (k0 = k)); simpl.
  - now rewrite List.map_app.
  - now rewrite IH.
Qed.

Lemma group_entries_map (l : list Entry) :
  group_entries key (List.map f l) = List.map F (group_entries key l).
Proof.
  unfold group_entries. change [] with (List.map F []) at 1.
  generalize (@nil ((str * str) * list Entry)).
  induction l as [|e l IH]; intros g; simpl; [reflexivity|].
  now rewrite f_key, group_add_map, IH.
Qed.

Lemma sorted_groups_map (g : list ((str * str) * list Entry)) :
  sorted_groups (List.map F g) = List.map F (sorted_groups g).
Proof.
  unfold sorted_groups, stable_sort.
  induction g as [|x g IH]; simpl; [reflexivity|]. rewrite IH.
  generalize (fold_right
                (insert_by (fun (x0 g0 : (str * str) * list Entry) =>
                              key_gt (fst x0) (fst g0))) [] g).
  intros s. induction s as [|y s IHs]; simpl; [reflexivity|].
  destruct (key_gt (fst y) (fst x)); simpl; [|reflexivity].
  now rewrite IHs.
Qed.

Lemma render_group_map (g : (str * str) * list Entry) :
  render_group (F g) = render_group g.
Proof.
  unfold render_group, F. cbn [fst snd].
  generalize (snd g). intros items.
  rewrite List.map_map, (map_ext _ _ f_item).
  assert (match List.map f items with [] => [] | it :: _ => section it end
          = match items with [] => [] | it :: _ => section it end) as ->
    by (destruct items; simpl; [reflexivity|apply f_section]).
  assert (forall t,
            existsb (fun it => negb (str_eqb (section it) t))
              (List.map f items)
            = existsb (fun it => negb (str_eqb (section it) t)) items) as ->.
  { intros t. induction items as [|it items IH]; simpl; [reflexivity|].
    now rewrite f_section, IH. }
  reflexivity.
Qed.

Lemma format_markdown_map (l : list Entry) :
  format_markdown (List.map f l)
  = (fst (format_markdown l), List.map f (snd (format_markdown l))).
Proof.
  destruct l as [|e l]; [reflexivity|].
  change (List.map f (e :: l)) with (f e :: List.map f l) at 1.
  unfold format_markdown.
  change (f e :: List.map f l) with (List.map f (e :: l)).
  unfold narrative_groups. cbn [fst snd].
  rewrite sort_entries_map, group_entries_map, sorted_groups_map.
  rewrite List.map_map, (map_ext _ _ render_group_map). reflexivity.
Qed.

End MapEntries.

(** X13: the narrative text does not depend on the classification: the
    text rendered from the enriched records is the one rendered from the
    records themselves, whatever the registry. *)
Theorem narrative_ignores_family (entries : list Entry)
    (registry : gmap str str) :
  fst (format_markdown (enrich_with_family entries registry))
  = fst (format_markdown entries).
Proof.
  unfold enrich_with_family.
  rewrite (format_markdown_map (enrich_one registry)); reflexivity.
Qed.

(** X14: the narrative holds every record exactly once: the records of
    its groups, taken together, are a rearrangement of the list, and the
    chunks rendered are one line for each record and a heading and a
    divider for each group. *)
Theorem narrative_renders_each_record_once (entries : list Entry) :
  let gs := narrative_groups entries in
  Permutation (List.concat (List.map snd gs)) entries
  /\ length (List.concat (List.map render_group gs))
     = (length entries + 2 * length gs)%nat.
Proof.
  cbv zeta.
  assert (Permutation (List.concat (List.map snd (narrative_groups entries)))
            entries) as Hp.
  { unfold narrative_groups, sorted_groups.
    rewrite <- !flat_map_concat_map.
    rewrite (stable_sort_perm
               (fun x g : (str * str) * list Entry => key_gt (fst x) (fst g))).
    rewrite flat_map_concat_map, group_entries_concat.
    symmetry. apply sort_entries_perm. }
  split; [exact Hp|].
  rewrite <- (Permutation_length Hp).
  clear Hp.
  induction (narrative_groups entries) as [|g gs IH]; [reflexivity|].
  cbn [List.map List.concat]. unfold render_group at 1.
  cbn [length app]. rewrite !length_app, length_map, IH.
  cbn [length]. lia.
Qed.

(** ** The shape of the narrative text *)

Lemma join_snoc (sep : str) (l : list str) (d : str) :
  l <> [] -> join sep (l ++ [d]) = join sep l ++ sep ++ d.
Proof.
  induction l as [|x l IH]; [congruence|]. intros _.
  destruct l as [|y l]; [reflexivity|].
  change (join sep ((x :: y :: l) ++ [d]))
    with (x ++ sep ++ join sep ((y :: l) ++ [d])).
  rewrite IH by discriminate.
  change (join sep (x :: y :: l)) with (x ++ sep ++ join sep (y :: l)).
  now rewrite <- !app_assoc.
Qed.

Lemma join_head (sep h : str) (t : list str) :
  exists r, join sep (h :: t) = h ++ r.
Proof.
  destruct t as [|y t]; [exists []; simpl; now rewrite app_nil_r|].
  exists (sep ++ join sep (y :: t)). reflexivity.
Qed.

Lemma chunks_shape (g : (str * str) * list Entry)
    (gs : list ((str * str) * list Entry)) :
  exists h tail,
    List.concat (List.map render_group (g :: gs))
    = ((py "## " ++ h) :: tail) ++ [[newline] ++ py "---" ++ [newline]].
Proof.
  revert g. induction gs as [|g2 gs IH]; intros g.
  - cbn [List.map List.concat]. unfold render_group. rewrite app_nil_r.
    eexists. eexists. cbn [app]. reflexivity.
  - destruct (IH g2) as (h2 & tail2 & E).
    change (List.concat (List.map render_group (g :: g2 :: gs)))
      with (render_group g ++ List.concat (List.map render_group (g2 :: gs))).
    rewrite E, (app_assoc (render_group g)). unfold render_group.
    eexists. eexists. reflexivity.
Qed.

Lemma strip_text_block (x : str) :
  strip ((35 :: x) ++ [newline] ++ [newline] ++ py "---" ++ [newline])
  = (35 :: x) ++ [newline; newline] ++ py "---".
Proof.
  unfold strip. change (lstrip ((35 :: x) ++ ?t)) with ((35 :: x) ++ t).
  unfold rstrip.
  change ([newline] ++ [newline] ++ py "---" ++ [newline])
    with (([newline; newline] ++ py "---") ++ [newline]).
  rewrite app_assoc, rev_app_distr. cbn [rev app].
  change (lstrip (newline :: ?t)) with (lstrip t).
  rewrite rev_app_distr. cbn [rev app py List.map list_ascii_of_string].
  change (lstrip (N_of_ascii "-" :: ?t)) with (N_of_ascii "-" :: t).
  cbn [rev]. rewrite <- !app_assoc. cbn [app].
  rewrite rev_app_distr, rev_involutive. reflexivity.
Qed.

(** X15: the no-matches message is returned for the empty list only; for
    any other list the text begins with the heading mark of its first
    group and ends with the divider, without the newline that follows the
    last divider. *)
Theorem narrative_text_shape (entries : list Entry) :
  (fst (format_markdown entries) = NO_MATCH <-> entries = [])
  /\ (entries <> [] ->
      exists body,
        fst (format_markdown entries)
        = py "## " ++ body ++ [newline; newline] ++ py "---").
Proof.
  assert (entries <> [] ->
          exists body,
            fst (format_markdown entries)
            = py "## " ++ body ++ [newline; newline] ++ py "---") as Hshape.
  { intros Hne. destruct entries as [|e entries]; [congruence|].
    unfold format_markdown. cbn [fst].
    destruct (narrative_groups (e :: entries)) as [|g gs] eqn:Eg.
    { exfalso.
      assert (In (key e) (List.map fst (narrative_groups (e :: entries))))
        as Hin by (apply narrative_groups_keys; exists e; split;
                   [now left|reflexivity]).
      rewrite Eg in Hin. destruct Hin. }
    destruct (chunks_shape g gs) as (h & tail & ->).
    rewrite join_snoc by discriminate.
    destruct (join_head [newline] (py "## " ++ h) tail) as [r ->].
    change ((py "## " ++ h) ++ r) with (35 :: (py "# " ++ h) ++ r).
    rewrite strip_text_block.
    exists (h ++ r). cbn [app py List.map list_ascii_of_string].
    rewrite <- !app_assoc. reflexivity. }
  split; [|exact Hshape].
  split.
  - intros Hmsg. destruct entries as [|e entries]; [reflexivity|].
    destruct Hshape as [body Hb]; [discriminate|].
    rewrite Hb in Hmsg. discriminate.
  - intros ->. reflexivity.
Qed.

(** ** The warning *)

Lemma unknowns_nil (enriched : list Entry) :
  unknowns enriched = []
  <-> forall e, In e enriched -> family e <> Some UNKNOWN.
Proof.
  split.
  - intros Hnil e He Hf.
    assert (In (tag e) (unknowns enriched)) as H
      by (apply unknowns_In; eauto).
    rewrite Hnil in H. destruct H.
  - intros H. destruct (unknowns enriched) as [|u l] eqn:E; [reflexivity|].
    assert (In u (unknowns enriched)) as Hu by (rewrite E; now left).
    apply unknowns_In in Hu as (e & He & _ & Hf). now apply H in He.
Qed.

(** X16: the warning about unknown tags is written exactly when some
    record carries a tag that the resolved registry does not have,
    whatever projection is chosen. *)
Theorem warning_iff_unknown_tag (read_text : str -> option str) (args : Args)
    (all_entries : list Entry) :
  fst (fst (main_core read_text args all_entries)) = None
  <-> forall e,
        In e all_entries ->
        is_Some (get_registry read_text (tags_reg args) !! tag e).
Proof.
  set (registry := get_registry read_text (tags_reg args)).
  assert (fst (fst (main_core read_text args all_entries)) = None
          <-> unknowns (enrich_with_family all_entries registry) = []) as ->.
  { unfold main_core. fold registry.
    destruct (str_eqb (json args) (py "raw"));
      [|destruct (str_eqb (json args) (py "grouped"))]; cbn [fst];
      destruct (unknowns (enrich_with_family all_entries registry));
      split; congruence. }
  rewrite unknowns_nil. unfold enrich_with_family.
  pose proof (get_registry_wf read_text (tags_reg args)) as Hwf.
  fold registry in Hwf.
  split.
  - intros H e He.
    destruct (enrich_one_family registry e Hwf) as (fam & Hf & _ & Hiff).
    destruct (registry !! tag e) eqn:E; [eauto|].
    exfalso. apply (H (enrich_one registry e)); [now apply in_map|].
    rewrite Hf. f_equal. now apply Hiff.
  - intros H e2 He2 Hf. apply in_map_iff in He2 as (e & <- & He).
    destruct (enrich_one_family registry e Hwf) as (fam & Hf' & _ & Hiff).
    rewrite Hf in Hf'. injection Hf' as <-.
    destruct (H e He) as [x Hx].
    assert (registry !! tag (enrich_one registry e) = None) as Hn
      by now apply Hiff.
    cbn [enrich_one tag] in Hn. congruence.
Qed.

(** X17: rendering is repeatable: the list that [format_markdown] leaves
    behind, rendered again, gives the same text and is left as it is. *)
Theorem format_markdown_again (entries : list Entry) :
  format_markdown (snd (format_markdown entries))
  = (fst (format_markdown entries), snd (format_markdown entries)).
Proof.
  rewrite format_markdown_list.
  assert (sort_entries (sort_entries entries) = sort_entries entries) as Hid
    by apply sort_entries_id, sort_entries_sorted.
  destruct entries as [|e entries]; [reflexivity|].
  assert (sort_entries (e :: entries) <> []) as Hne.
  { intros Hnil.
    pose proof (Permutation_length (sort_entries_perm (e :: entries))) as Hl.
    rewrite Hnil in Hl. discriminate. }
  assert (forall l,
            l <> [] ->
            format_markdown l
            = (strip (join [newline]
                        (List.concat
                           (List.map render_group (narrative_groups l)))),
               sort_entries l)) as Hfm
    by (intros [|x l] Hl; [congruence|reflexivity]).
  rewrite (Hfm _ Hne), (Hfm (e :: entries)) by discriminate.
  cbn [fst]. unfold narrative_groups. rewrite Hid. reflexivity.
Qed.

(** ** Titles *)

Lemma search_match (r : regex) (s : str) (c : caps) :
  search r s = Some c -> exists pre s', s = pre ++ s' /\ match_ r s' = Some c.
Proof.
  induction s as [|x s IH]; simpl.
  - destruct (match_ r []) eqn:E; [|discriminate].
    intros [= ->]. now exists [], [].
  - destruct (match_ r (x :: s)) eqn:E.
    + intros [= ->]. now exists [], (x :: s).
    + intros H. apply IH in H as (pre & s' & -> & Hm).
      now exists (x :: pre), s'.
Qed.

(** The lazy repetition stops at the first place where what follows
    succeeds. *)
Lemma star_lazy_first (p : char -> bool) (s : str) (c : caps) (k : K)
    (res : caps) :
  star_cls false p s c k = Some res ->
  exists w s',
    s = w ++ s' /\ k s' c = Some res
    /\ forall w1 w2, w = w1 ++ w2 -> w2 <> [] -> k (w2 ++ s') c = None.
Proof.
  induction s as [|x s IH]; simpl; intros H.
  - exists [], []. repeat split; [assumption|].
    intros w1 w2 Hw. destruct w1, w2; try discriminate. congruence.
  - assert (k (x :: s) c = Some res
            \/ (k (x :: s) c = None /\ star_cls false p s c k = Some res))
      as [Hk|[Hk Hs]].
    { destruct (p x); [|now left].
      destruct (k (x :: s) c); [left; congruence|now right]. }
    + exists [], (x :: s). repeat split; [assumption|].
      intros w1 w2 Hw. destruct w1, w2; try discriminate. congruence.
    + destruct (IH Hs) as (w & s' & -> & Hres & Hmin).
      exists (x :: w), s'. repeat split; [assumption|].
      intros w1 w2 Hw Hne. destruct w1 as [|y w1].
      * simpl in Hw. subst w2. exact Hk.
      * injection Hw as _ Hw. eauto.
Qed.

(** X18: the title of a ledger header ends at the first closing brace: it
    has at least one character, and after its first character it has no
    closing brace; the title of the section declaration has none at
    all. *)
Theorem titles_end_at_brace (line : str) (mh : caps) (text t : str) :
  (search HDR_RE line = Some mh ->
   exists x w, group mh "title" = Some (x :: w) /\ ~ In 125 w)
  /\ (prescan text = Some t -> t <> [] /\ ~ In 125 t).
Proof.
  split.
  - intros H. apply search_match in H as (pre & s & _ & H).
    unfold match_, HDR_RE in H. cbn [Cat fold_right] in H.
    change (rmatch (Seq ?a ?b) s [] accept)
      with (rmatch a s [] (fun s1 c1 => rmatch b s1 c1 accept)) in H.
    apply rmatch_sound in H as (w0 & s1 & c1 & -> & M & H).
    apply Matches_Lit_inv in M as [-> ->].
    unfold Plus in H. cbn [rmatch] in H.
    destruct s1 as [|x s1]; [discriminate|].
    destruct (dot x); [|discriminate].
    apply star_lazy_first in H as (w & s' & -> & Hres & Hmin).
    assert (firstn (length (x :: w ++ s') - length s') (x :: w ++ s')
            = x :: w) as Hcap.
    { change (x :: w ++ s') with ((x :: w) ++ s'). apply firstn_consumed. }
    rewrite Hcap in Hres.
    apply rmatch_sound in Hres as (w2 & s2 & c2 & _ & M2 & Hacc).
    minv. injection Hacc as <-.
    exists x, w. split; [reflexivity|].
    intros Hin. apply in_split in Hin as (w1 & w2 & ->).
    specialize (Hmin w1 (125 :: w2) eq_refl).
    specialize (Hmin ltac:(discriminate)).
    cbn [app] in Hmin. unfold accept in Hmin.
    change (Lit (py "}")) with (Seq (Chr (N.eqb 125)) Eps) in Hmin.
    cbn [rmatch N.eqb Pos.eqb] in Hmin. discriminate Hmin.
  - unfold prescan. destruct (search SECTION_RE text) as [m|] eqn:E;
      [|discriminate].
    apply search_sound in E as (pre & w & post & _ & M).
    unfold SECTION_RE in M.
    assert (forall l, forallb (not_chr 125) l = true -> ~ In 125 l) as Hno.
    { intros l Hl Hin. rewrite forallb_forall in Hl. apply Hl in Hin.
      discriminate. }
    minv; simpl; intros [= <-]; (split; [discriminate|]);
      apply (Hno (_ :: _)); simpl;
      repeat match goal with H : _ = true |- _ => rewrite H; clear H end;
      reflexivity.
Qed.

(** ** A table row of TAGS.md *)

Lemma upper_not_space (c : char) : is_upper c = true -> isspace c = false.
Proof. unfold is_upper, isspace. intros H. b2p. lia. Qed.

Lemma space_not_reg (c : char) : isspace c = true -> reg_char c = false.
Proof.
  unfold isspace, reg_char, is_upper, is_digit09. intros H. b2p. lia.
Qed.

Lemma TBL_accepts (ws1 : str) (t : char) (T' ws2 rest : str) :
  reg_shape (t :: T') = true ->
  forallb isspace ws1 = true -> forallb isspace ws2 = true ->
  match_ TBL_RE (py "|" ++ ws1 ++ (t :: T') ++ ws2 ++ py "|" ++ rest)
  = Some [("1"%string, t :: T')].
Proof.
  intros Hshape H1 H2.
  destruct T' as [|y r]; [discriminate|].
  simpl in Hshape. apply andb_prop in Hshape as [Ht Hyr].
  apply andb_prop in Hyr as [Hy Hr].
  assert (Consumes TBL_RE (py "|" ++ ws1 ++ (t :: y :: r) ++ ws2 ++ py "|")
            rest [] [("1"%string, t :: y :: r)]) as HC.
  { unfold TBL_RE. cbn [Cat fold_right].
    eapply Consumes_Seq; [apply Consumes_Lit|].
    eapply Consumes_Seq.
    { apply Consumes_Star; [assumption|]. simpl.
      now rewrite (upper_not_space t Ht). }
    eapply Consumes_Seq.
    { apply Consumes_Group.
      eapply (Consumes_Seq _ _ [t] (y :: r)); [now apply Consumes_Chr|].
      apply Consumes_Seq_Eps, Consumes_Plus; [assumption..|].
      destruct ws2 as [|z ws2]; [reflexivity|].
      simpl in H2. apply andb_prop in H2 as [Hz _].
      simpl. now rewrite (space_not_reg z Hz). }
    eapply Consumes_Seq; [apply Consumes_Star; [assumption|reflexivity]|].
    apply Consumes_Seq_Eps, Consumes_Lit. }
  unfold match_.
  replace (py "|" ++ ws1 ++ (t :: y :: r) ++ ws2 ++ py "|" ++ rest)
    with ((py "|" ++ ws1 ++ (t :: y :: r) ++ ws2 ++ py "|") ++ rest)
    by (now rewrite <- !app_assoc).
  now apply HC.
Qed.

(** X19: under a family heading, a line that is a table row
    [| TAG | ...] with a tag of the shape [[A-Z][A-Z0-9_]+] records the
    tag under the current family, replacing whatever family the tag had
    before; the current family is kept. *)
Theorem table_row_records (m : gmap str str) (fam line ws1 T ws2 rest : str) :
  fam <> [] ->
  reg_shape T = true ->
  forallb isspace ws1 = true -> forallb isspace ws2 = true ->
  strip line = py "|" ++ ws1 ++ T ++ ws2 ++ py "|" ++ rest ->
  registry_line (m, Some fam) line = (<[T := fam]> m, Some fam)
  /\ fst (registry_line (m, Some fam) line) !! T = Some fam.
Proof.
  intros Hfam Hshape H1 H2 Hstrip.
  assert (registry_line (m, Some fam) line = (<[T := fam]> m, Some fam))
    as Hline.
  { unfold registry_line. rewrite Hstrip.
    change (startswith (py "## ") (py "|" ++ ?x)) with false. cbn iota.
    destruct T as [|t T']; [discriminate|].
    rewrite (TBL_accepts ws1 t T' ws2 rest Hshape H1 H2).
    cbn [snd fst]. rewrite (truthy_nonempty fam Hfam).
    change (group_str [("1"%string, t :: T')] "1") with (t :: T').
    now rewrite (reg_shape_upper (t :: T') Hshape). }
  split; [exact Hline|]. rewrite Hline. cbn [fst]. apply lookup_insert_eq.
Qed.

Lemma table_row_records_witness :
  registry_line ({[py "SEED" := STRUCTURAL]}, Some META)
    (py "  | SEED   | moved |  ")
  = (<[py "SEED" := META]> {[py "SEED" := STRUCTURAL]}, Some META).
Proof.
  apply (table_row_records {[py "SEED" := STRUCTURAL]} META
           (py "  | SEED   | moved |  ") (py " ") (py "SEED") (py "   ")
           (py " moved |")); try reflexivity.
  discriminate.
Defined.
